(** * google.auth.transport.aiohttp_req: the authorized aiohttp session

    A shallow embedding of [src/google/auth/transport/aiohttp_req.py]:
    the [_Response] adapter, the [Request] invoker and
    [AuthorizedSession.request] with its authorize / send / refresh /
    recurse cycle.

    The coroutines are written in a state-and-exception monad over an
    explicit program state: the store of Python [dict] objects (so that
    [headers.copy()] and the in-place decoration by the credentials are
    visible), the aiohttp sessions created so far, the wall clock read by
    the time guards, the state of the outside world (credentials, servers)
    and a chronological trace of the calls made to the collaborators.
    Time is counted in clock ticks. Calls to the logger are left out. *)

From stdpp Require Import gmap strings list.
From Stdlib Require Import ZArith Lia Sorted.

#[local] Open Scope Z_scope.

(** ** Python values *)

(** The exceptions that can cross this module:
    - [ClientError]: [aiohttp.ClientError] and its subclasses;
    - [ServerTimeoutError]: aiohttp's exception that derives from both
      [aiohttp.ClientError] and [asyncio.TimeoutError];
    - [TimeoutError]: [asyncio.TimeoutError], the type the time guards of
      [request] are created with;
    - [TransportError]: [google.auth.exceptions.TransportError(cause)];
    - [RefreshError]: [google.auth.exceptions.RefreshError];
    - [AttributeError]: attribute access on an object that lacks it;
    - [OtherError]: anything else a collaborator may raise. *)
Inductive exn : Type :=
| ClientError (detail : string)
| ServerTimeoutError
| TimeoutError
| TransportError (cause : exn)
| RefreshError (detail : string)
| AttributeError (detail : string)
| OtherError (detail : string).

(** [isinstance(e, aiohttp.ClientError)] *)
Definition is_ClientError (e : exn) : bool :=
  match e with
  | ClientError _ | ServerTimeoutError => true
  | _ => false
  end.

(** [isinstance(e, asyncio.TimeoutError)] *)
Definition is_asyncio_TimeoutError (e : exn) : bool :=
  match e with
  | TimeoutError | ServerTimeoutError => true
  | _ => false
  end.

(** References to [dict] objects and to [aiohttp.ClientSession] objects. *)
Definition loc := nat.
Definition handle := nat.

Abbreviation dict := (gmap string string).
Abbreviation bytes := (list Byte.byte).
Abbreviation kwargs_t := (list (string * string)).

(** What [aiohttp.ClientSession.request] hands back. *)
Record ClientResponse := mkClientResponse {
  status : Z;
  headers : dict;
  content : bytes
}.

(** The outcome of a call into a collaborator. *)
Inductive raised (A : Type) : Type :=
| Returns (a : A)
| Raises (e : exn).
Arguments Returns {A} a.
Arguments Raises {A} e.

Definition has_raised {A} (r : raised A) : bool :=
  match r with Returns _ => false | Raises _ => true end.

(** [class Request]: the invoker only stores its aiohttp session. *)
Record Request := mkRequest { session : handle }.

(** The callable handed to the credentials: [self._auth_request] itself or
    [functools.partial(self._auth_request, timeout=timeout)]. *)
Inductive auth_request_t : Type :=
| Invoker (r : Request)
| PartialInvoker (r : Request) (timeout : Z).

(** [class AuthorizedSession]; [this] is the object itself seen as the
    [aiohttp.ClientSession] it derives from ([super(AuthorizedSession, self)]).
    The credentials object lives in the outside world. *)
Record AuthorizedSession := mkAuthorizedSession {
  this : handle;
  _refresh_status_codes : list Z;
  _max_refresh_attempts : Z;
  _refresh_timeout : option Z;
  _auth_request : Request;
  _auth_request_session : option handle
}.

(** ** Trace of the calls a coroutine makes *)

Inductive event : Type :=
| EvCall (hdrs : option loc) (max_allowed_time : option Z) (attempt : Z)
| EvBeforeRequest (a : auth_request_t) (hdrs : loc) (before after : dict)
    (r : raised unit)
| EvSend (s : handle) (method url : string) (hdrs : option dict)
    (timeout : option Z) (r : raised ClientResponse)
| EvLockAcquire
| EvRefresh (a : auth_request_t) (r : raised unit)
| EvLockRelease
| EvClose (s : handle)
| EvGuardEnter (budget : option Z)
| EvGuardTimeout.

Definition is_send (e : event) : bool :=
  match e with EvSend _ _ _ _ _ _ => true | _ => false end.
Definition is_refresh (e : event) : bool :=
  match e with EvRefresh _ _ => true | _ => false end.
Definition is_close (e : event) : bool :=
  match e with EvClose _ => true | _ => false end.
Definition is_guard_timeout (e : event) : bool :=
  match e with EvGuardTimeout => true | _ => false end.

(** A collaborator raised at this event. *)
Definition is_failure (e : event) : bool :=
  match e with
  | EvBeforeRequest _ _ _ _ r => has_raised r
  | EvSend _ _ _ _ _ r => has_raised r
  | EvRefresh _ r => has_raised r
  | _ => false
  end.

Fixpoint count (p : event → bool) (tr : list event) : nat :=
  match tr with
  | [] => 0
  | e :: rest => (if p e then 1 else 0) + count p rest
  end%nat.

(** The outcomes of the sends of a trace, in order. *)
Fixpoint responses (tr : list event) : list (raised ClientResponse) :=
  match tr with
  | [] => []
  | EvSend _ _ _ _ _ r :: rest => r :: responses rest
  | _ :: rest => responses rest
  end.

(** The budgets the time guards of a trace were entered with, in order. *)
Fixpoint budgets (tr : list event) : list (option Z) :=
  match tr with
  | [] => []
  | EvGuardEnter b :: rest => b :: budgets rest
  | _ :: rest => budgets rest
  end.

(** The dict objects handed to the credentials for decoration, in order. *)
Fixpoint decorated_locs (tr : list event) : list loc :=
  match tr with
  | [] => []
  | EvBeforeRequest _ l _ _ _ :: rest => l :: decorated_locs rest
  | _ :: rest => decorated_locs rest
  end.

(** Every send carries the headers as the credentials left them in the
    decoration that precedes it, and each decoration serves one send:
    [cur] is the decoration not yet sent. *)
Fixpoint sends_decorated (cur : option dict) (tr : list event) : Prop :=
  match tr with
  | [] => True
  | EvBeforeRequest _ _ _ after _ :: rest => sends_decorated (Some after) rest
  | EvSend _ _ _ hd _ _ :: rest =>
      hd = cur ∧ is_Some cur ∧ sends_decorated None rest
  | _ :: rest => sends_decorated cur rest
  end.

(** Every call of a trace, the outermost and the recursive ones, receives
    the headers argument [hd]; every decoration starts from the contents
    [d0] and is applied to an object that did not exist when the outermost
    call started with [n] objects in the store. *)
Definition starts_from (hd : option loc) (d0 : dict) (n : nat) (e : event)
    : Prop :=
  match e with
  | EvCall h _ _ => h = hd
  | EvBeforeRequest _ l before _ _ => (n ≤ l)%nat ∧ before = d0
  | _ => True
  end.

(** No budget anywhere: every guard is entered with [None] and every call
    receives [max_allowed_time = None]. *)
Definition unlimited (e : event) : Prop :=
  match e with
  | EvGuardEnter b => b = None
  | EvCall _ mat _ => mat = None
  | _ => True
  end.

(** ** The outside world

    The credentials object and the HTTP transport are opaque: each call
    consumes the current state of the world and yields the next one, the
    wall-clock time the call took and its outcome. [cred_before_request]
    also yields the contents of the [headers] dict it was given as it has
    left them. *)
Record Collaborators (W : Type) := mkCollaborators {
  cred_before_request :
    auth_request_t → string → string → dict → W → dict * W * Z * raised unit;
  cred_refresh : auth_request_t → W → W * Z * raised unit;
  session_request :
    handle → string → string → option bytes → option dict → option Z →
    kwargs_t → W → W * Z * raised ClientResponse
}.
Arguments cred_before_request {W} _ _ _ _ _ _.
Arguments cred_refresh {W} _ _ _.
Arguments session_request {W} _ _ _ _ _ _ _ _ _.

(** ** Program state and the coroutine monad *)

Record state (W : Type) := mkState {
  heap : list dict;
  sessions : list bool;
  world : W;
  clock : Z;
  trace : list event
}.
Arguments mkState {W} _ _ _ _ _.
Arguments heap {W} _.
Arguments sessions {W} _.
Arguments world {W} _.
Arguments clock {W} _.
Arguments trace {W} _.

(** A coroutine either returns, raises, or (for the recursion of
    [request] only) exhausts the recursion fuel it was given. *)
Inductive result (A : Type) : Type :=
| Ok (a : A)
| Raise (e : exn)
| OutOfFuel.
Arguments Ok {A} a.
Arguments Raise {A} e.
Arguments OutOfFuel {A}.

Definition M (W A : Type) : Type := state W → state W * result A.

Definition ret {W A} (a : A) : M W A := λ st, (st, Ok a).

Definition raise {W A} (e : exn) : M W A := λ st, (st, Raise e).

Definition bind {W A B} (m : M W A) (k : A → M W B) : M W B :=
  λ st,
    match m st with
    | (st1, Ok a) => k a st1
    | (st1, Raise e) => (st1, Raise e)
    | (st1, OutOfFuel) => (st1, OutOfFuel)
    end.

Notation "'let!' x ':=' m 'in' k" := (bind m (λ x, k))
  (at level 10, x name, m at level 100, k at level 200).
Notation "'let!' ' x ':=' m 'in' k" := (bind m (λ x, k))
  (at level 10, x strict pattern, m at level 100, k at level 200).

Definition log {W} (e : event) : M W unit :=
  λ st, (mkState (heap st) (sessions st) (world st) (clock st)
           (trace st ++ [e]), Ok tt).

(** What running a coroutine from [st] yields: its outcome, the state it
    leaves and the events it has appended to the trace. *)
Definition outcome {W A} (m : M W A) (st : state W) : result A := (m st).2.
Definition final {W A} (m : M W A) (st : state W) : state W := (m st).1.
Definition emitted {W A} (m : M W A) (st : state W) : list event :=
  drop (length (trace st)) (trace (m st).1).

(** ** The store of dict objects *)

Definition heap_get {W} (l : loc) (st : state W) : dict :=
  default ∅ (heap st !! l).

(** [{}] or [dict(...)]: a new object. *)
Definition dict_new {W} (d : dict) : M W loc :=
  λ st, (mkState (heap st ++ [d]) (sessions st) (world st) (clock st)
           (trace st), Ok (length (heap st))).

(** [headers.copy()] *)
Definition dict_copy {W} (l : loc) : M W loc :=
  λ st, dict_new (heap_get l st) st.

(** [aiohttp.ClientSession()] *)
Definition ClientSession_new {W} : M W handle :=
  λ st, (mkState (heap st) (sessions st ++ [false]) (world st) (clock st)
           (trace st), Ok (length (sessions st))).

(** [await session.close()] on a possibly missing session object:
    [None] has no attribute [close]. *)
Definition ClientSession_close {W} (s : option handle) : M W unit :=
  match s with
  | None => raise (AttributeError "'NoneType' object has no attribute 'close'")
  | Some h =>
      λ st, (mkState (heap st) (<[h := true]> (sessions st)) (world st)
               (clock st) (trace st ++ [EvClose h]), Ok tt)
  end.

(** Modelled from the spec: the test a time guard makes when its block is
    left, [elapsed] being the time the block took: the budget is exceeded.
    An unlimited budget never is. *)
Definition overrun (budget : option Z) (elapsed : Z) : bool :=
  match budget with
  | Some b => b <? elapsed
  | None => false
  end.

(** Modelled from the spec: what a time guard exposes as
    [remaining_timeout] on a normal exit: [budget - elapsed], and [None]
    for an unlimited budget. *)
Definition remaining (budget : option Z) (elapsed : Z) : option Z :=
  match budget with
  | Some b => Some (b - elapsed)
  | None => None
  end.

Section Coroutines.

Context {W : Type} (env : Collaborators W).

(** ** Calls into the collaborators *)

(** [self.credentials.before_request(auth_request, method, url, headers)]:
    the credentials decorate the dict object they are given in place. *)
Definition credentials_before_request (a : auth_request_t)
    (method url : string) (hdrs : loc) : M W unit :=
  λ st,
    let before := heap_get hdrs st in
    let '(after, w, took, r) :=
      cred_before_request env a method url before (world st) in
    (mkState (<[hdrs := after]> (heap st)) (sessions st) w (clock st + took)
       (trace st ++ [EvBeforeRequest a hdrs before after r]),
     match r with Returns _ => Ok tt | Raises e => Raise e end).

(** [self.credentials.refresh(auth_request)] *)
Definition credentials_refresh (a : auth_request_t) : M W unit :=
  λ st,
    let '(w, took, r) := cred_refresh env a (world st) in
    (mkState (heap st) (sessions st) w (clock st + took)
       (trace st ++ [EvRefresh a r]),
     match r with Returns _ => Ok tt | Raises e => Raise e end).

(** [await aiohttp.ClientSession.request(s, method, url, data=data,
    headers=headers, timeout=timeout, **kwargs)] *)
Definition ClientSession_request (s : handle) (method url : string)
    (data : option bytes) (hdrs : option dict) (timeout : option Z)
    (kwargs : kwargs_t) : M W ClientResponse :=
  λ st,
    let '(w, took, r) :=
      session_request env s method url data hdrs timeout kwargs (world st) in
    (mkState (heap st) (sessions st) w (clock st + took)
       (trace st ++ [EvSend s method url hdrs timeout r]),
     match r with Returns resp => Ok resp | Raises e => Raise e end).

(** [async with self._refresh_lock: body]. A logical call run on its own
    finds the lock free; the lock is released on every exit of the body. *)
Definition with_refresh_lock {A} (body : M W A) : M W A :=
  λ st,
    let '(st1, _) := log EvLockAcquire st in
    let '(st2, r) := body st1 in
    let '(st3, _) := log EvLockRelease st2 in
    (st3, r).

(** [await self._loop.run_in_executor(None, f, *args)]: the awaiting
    coroutine resumes with the result of [f], or with what it raised. *)
Definition run_in_executor {A} (f : M W A) : M W A := f.

(** ** The time guard *)

(** Modelled from the spec: [requests.TimeoutGuard] is defined in
    [google/auth/transport/requests.py], which is not among the sources.
    A guard is created with a budget (possibly unlimited, [None]) and the
    type of its timeout error; on entry it records a start time; when the
    guarded block is left normally it computes
    [remaining = budget - elapsed] and exposes it as [remaining_timeout];
    if the elapsed time exceeds the budget it raises its timeout error,
    superseding whatever the block itself raised; an unlimited budget
    disables the check and stays [None]. *)
Record TimeoutGuard := mkTimeoutGuard {
  _timeout : option Z;
  _timeout_error_type : exn;
  _start : Z;
  remaining_timeout : option Z
}.

(** Modelled from the spec: [TimeoutGuard.__enter__] records the start
    time. *)
Definition TimeoutGuard_enter (timeout : option Z)
    (timeout_error_type : exn) : M W TimeoutGuard :=
  λ st,
    let '(st1, _) := log (EvGuardEnter timeout) st in
    (st1, Ok (mkTimeoutGuard timeout timeout_error_type (clock st) timeout)).

(** Modelled from the spec: [TimeoutGuard.__exit__] measures the time the
    block took; over budget it raises the timeout error, whatever the block
    did; otherwise it passes on what the block did and, if that was a
    normal exit, exposes the remaining budget. *)
Definition TimeoutGuard_exit {A} (guard : TimeoutGuard) (r : result A)
    : M W (A * TimeoutGuard) :=
  λ st,
    let elapsed := clock st - _start guard in
    match r with
    | OutOfFuel => (st, OutOfFuel)
    | _ =>
        if overrun (_timeout guard) elapsed then
          let '(st1, _) := log EvGuardTimeout st in
          (st1, Raise (_timeout_error_type guard))
        else
          (st, match r with
               | Ok a =>
                   Ok (a, mkTimeoutGuard (_timeout guard)
                            (_timeout_error_type guard) (_start guard)
                            (remaining (_timeout guard) elapsed))
               | Raise e => Raise e
               | OutOfFuel => OutOfFuel
               end)
    end.

(** [with requests.TimeoutGuard(timeout, timeout_error_type) as guard:
    body]; yields the value of the body together with the guard, whose
    [remaining_timeout] the caller may read afterwards. *)
Definition with_TimeoutGuard {A} (timeout : option Z)
    (timeout_error_type : exn) (body : M W A) : M W (A * TimeoutGuard) :=
  λ st,
    match TimeoutGuard_enter timeout timeout_error_type st with
    | (st1, Ok guard) =>
        let '(st2, r) := body st1 in
        TimeoutGuard_exit guard r st2
    | (st1, Raise e) => (st1, Raise e)
    | (st1, OutOfFuel) => (st1, OutOfFuel)
    end.

(** ** [class _Response] *)

Record _Response := mk_Response { response : ClientResponse }.

Definition _Response_status (r : _Response) : Z := status (response r).
Definition _Response_headers (r : _Response) : dict := headers (response r).
Definition _Response_data (r : _Response) : bytes := content (response r).

(** ** [class Request] *)

(** [Request.__init__(self, session=None)] *)
Definition Request_init (s : option handle) : M W Request :=
  match s with
  | Some h => ret (mkRequest h)
  | None => let! h := ClientSession_new in ret (mkRequest h)
  end.

(** [try: body except aiohttp.ClientError ... except asyncio.TimeoutError
    ...]: both handlers raise [TransportError(caught_exc)] from the caught
    exception; anything else passes through. *)
Definition wrap_transport_errors {A} (body : M W A) : M W A :=
  λ st,
    match body st with
    | (st1, Raise caught_exc) =>
        if is_ClientError caught_exc then
          (st1, Raise (TransportError caught_exc))
        else if is_asyncio_TimeoutError caught_exc then
          (st1, Raise (TransportError caught_exc))
        else (st1, Raise caught_exc)
    | other => other
    end.

(** [Request.__call__(self, url, method, body, headers, timeout, **kwargs)] *)
Definition Request_call (self : Request) (url method : string)
    (body : option bytes) (hdrs : option dict) (timeout : option Z)
    (kwargs : kwargs_t) : M W _Response :=
  wrap_transport_errors
    (let! resp :=
       ClientSession_request (session self) method url body hdrs timeout
         kwargs in
     ret (mk_Response resp)).

(** ** [class AuthorizedSession] *)

(** [AuthorizedSession.__init__]: [super().__init__()] makes the object an
    aiohttp session of its own; the auth-request session is created only
    when no [auth_request] is supplied. *)
Definition AuthorizedSession_init (refresh_status_codes : list Z)
    (max_refresh_attempts : Z) (refresh_timeout : option Z)
    (auth_request : option Request) : M W AuthorizedSession :=
  let! self_ := ClientSession_new in
  match auth_request with
  | None =>
      let! s := ClientSession_new in
      ret (mkAuthorizedSession self_ refresh_status_codes
             max_refresh_attempts refresh_timeout (mkRequest s) (Some s))
  | Some r =>
      ret (mkAuthorizedSession self_ refresh_status_codes
             max_refresh_attempts refresh_timeout r None)
  end.

(** [status in self._refresh_status_codes] *)
Definition status_in (s : Z) (codes : list Z) : bool :=
  existsb (Z.eqb s) codes.

(** [self._auth_request if timeout is None else
     functools.partial(self._auth_request, timeout=timeout)] *)
Definition derive_auth_request (self : AuthorizedSession)
    (timeout : option Z) : auth_request_t :=
  match timeout with
  | None => Invoker (_auth_request self)
  | Some t => PartialInvoker (_auth_request self) t
  end.

(** [AuthorizedSession.request]. The recursion of the source is bounded by
    [fuel]; [_credential_refresh_attempt] is the value popped from the
    keyword arguments. *)
Fixpoint request_rec (fuel : nat) (self : AuthorizedSession)
    (method url : string) (data : option bytes) (hdrs : option loc)
    (max_allowed_time : option Z) (timeout : option Z)
    (_credential_refresh_attempt : Z) (kwargs : kwargs_t)
    : M W ClientResponse :=
  match fuel with
  | O => λ st, (st, OutOfFuel)
  | S fuel' =>
      let! _ := log (EvCall hdrs max_allowed_time _credential_refresh_attempt) in
      let! request_headers :=
        match hdrs with
        | Some h => dict_copy h
        | None => dict_new ∅
        end in
      let auth_request := derive_auth_request self timeout in
      let remaining_time := max_allowed_time in
      let! '(_, guard) :=
        with_TimeoutGuard remaining_time TimeoutError
          (credentials_before_request auth_request method url
             request_headers) in
      let! '(response, guard) :=
        with_TimeoutGuard remaining_time TimeoutError
          (λ st, ClientSession_request (this self) method url data
                   (Some (heap_get request_headers st)) timeout kwargs st) in
      let remaining_time := remaining_timeout guard in
      if status_in (status response) (_refresh_status_codes self)
         && (_credential_refresh_attempt <? _max_refresh_attempts self)
      then
        let auth_request := derive_auth_request self timeout in
        let! '(_, guard) :=
          with_TimeoutGuard remaining_time TimeoutError
            (with_refresh_lock
               (run_in_executor (credentials_refresh auth_request))) in
        let remaining_time := remaining_timeout guard in
        request_rec fuel' self method url data hdrs remaining_time timeout
          (_credential_refresh_attempt + 1) kwargs
      else
        let! _ := ClientSession_close (_auth_request_session self) in
        ret response
  end.

(** The fuel a call needs: one frame per refresh still allowed, and one. *)
Definition request_fuel (self : AuthorizedSession) (attempt : Z) : nat :=
  S (Z.to_nat (_max_refresh_attempts self - attempt)).

(** [await session.request(method, url, data=, headers=,
    max_allowed_time=, timeout=, **kwargs)]; [attempt_kw] is the
    [_credential_refresh_attempt] keyword argument if the caller passes
    one, [kwargs.pop] defaulting it to [0]. *)
Definition request (self : AuthorizedSession) (method url : string)
    (data : option bytes) (hdrs : option loc) (max_allowed_time : option Z)
    (timeout : option Z) (attempt_kw : option Z) (kwargs : kwargs_t)
    : M W ClientResponse :=
  let _credential_refresh_attempt := default 0 attempt_kw in
  request_rec (request_fuel self _credential_refresh_attempt) self method url
    data hdrs max_allowed_time timeout _credential_refresh_attempt kwargs.

End Coroutines.

(** ** The paths through one call

    [run attempt mat st evs st' r]: started in [st] with
    [_credential_refresh_attempt = attempt] and [max_allowed_time = mat],
    the call appends the events [evs] to the trace, leaves the state [st']
    and ends with [r]. One rule per way out of the body of [request], in
    the order of the source, and one for the recursive call. The time a
    guard measures is the time its block took. *)

Section Paths.

Context {W : Type} (env : Collaborators W).
Context (self : AuthorizedSession) (method url : string)
  (data : option bytes) (hdrs : option loc) (timeout : option Z)
  (kwargs : kwargs_t).

(** The contents the copy starts from, and the store once the credentials
    have decorated the copy. *)
Definition original (st : state W) : dict :=
  match hdrs with
  | Some h => heap_get h st
  | None => ∅
  end.

Definition heap_after (st : state W) (after : dict) : list dict :=
  <[length (heap st) := after]> (heap st ++ [original st]).

Definition evs_authorize (attempt : Z) (mat : option Z) (st : state W)
    (after : dict) (r1 : raised unit) : list event :=
  [EvCall hdrs mat attempt; EvGuardEnter mat;
   EvBeforeRequest (derive_auth_request self timeout) (length (heap st))
     (original st) after r1].

Definition evs_send (mat : option Z) (after : dict)
    (r2 : raised ClientResponse) : list event :=
  [EvGuardEnter mat;
   EvSend (this self) method url (Some after) timeout r2].

Definition evs_refresh (rem : option Z) (r3 : raised unit) : list event :=
  [EvGuardEnter rem; EvLockAcquire;
   EvRefresh (derive_auth_request self timeout) r3; EvLockRelease].

Definition wants_refresh (resp : ClientResponse) (attempt : Z) : bool :=
  status_in (status resp) (_refresh_status_codes self)
  && (attempt <? _max_refresh_attempts self).

Inductive run :
  Z → option Z → state W → list event → state W → result ClientResponse →
  Prop :=
| run_authorize_timeout attempt mat st after w1 t1 r1 evs :
    cred_before_request env (derive_auth_request self timeout) method url
      (original st) (world st) = (after, w1, t1, r1) →
    overrun mat t1 = true →
    evs = evs_authorize attempt mat st after r1 ++ [EvGuardTimeout] →
    run attempt mat st evs
      (mkState (heap_after st after) (sessions st) w1 (clock st + t1)
         (trace st ++ evs))
      (Raise TimeoutError)
| run_authorize_raises attempt mat st after w1 t1 e evs :
    cred_before_request env (derive_auth_request self timeout) method url
      (original st) (world st) = (after, w1, t1, Raises e) →
    overrun mat t1 = false →
    evs = evs_authorize attempt mat st after (Raises e) →
    run attempt mat st evs
      (mkState (heap_after st after) (sessions st) w1 (clock st + t1)
         (trace st ++ evs))
      (Raise e)
| run_send_timeout attempt mat st after w1 t1 w2 t2 r2 evs :
    cred_before_request env (derive_auth_request self timeout) method url
      (original st) (world st) = (after, w1, t1, Returns tt) →
    overrun mat t1 = false →
    session_request env (this self) method url data (Some after) timeout
      kwargs w1 = (w2, t2, r2) →
    overrun mat t2 = true →
    evs = evs_authorize attempt mat st after (Returns tt)
          ++ evs_send mat after r2 ++ [EvGuardTimeout] →
    run attempt mat st evs
      (mkState (heap_after st after) (sessions st) w2 (clock st + t1 + t2)
         (trace st ++ evs))
      (Raise TimeoutError)
| run_send_raises attempt mat st after w1 t1 w2 t2 e evs :
    cred_before_request env (derive_auth_request self timeout) method url
      (original st) (world st) = (after, w1, t1, Returns tt) →
    overrun mat t1 = false →
    session_request env (this self) method url data (Some after) timeout
      kwargs w1 = (w2, t2, Raises e) →
    overrun mat t2 = false →
    evs = evs_authorize attempt mat st after (Returns tt)
          ++ evs_send mat after (Raises e) →
    run attempt mat st evs
      (mkState (heap_after st after) (sessions st) w2 (clock st + t1 + t2)
         (trace st ++ evs))
      (Raise e)
| run_return attempt mat st after w1 t1 w2 t2 resp s evs :
    cred_before_request env (derive_auth_request self timeout) method url
      (original st) (world st) = (after, w1, t1, Returns tt) →
    overrun mat t1 = false →
    session_request env (this self) method url data (Some after) timeout
      kwargs w1 = (w2, t2, Returns resp) →
    overrun mat t2 = false →
    wants_refresh resp attempt = false →
    _auth_request_session self = Some s →
    evs = evs_authorize attempt mat st after (Returns tt)
          ++ evs_send mat after (Returns resp) ++ [EvClose s] →
    run attempt mat st evs
      (mkState (heap_after st after) (<[s := true]> (sessions st)) w2
         (clock st + t1 + t2) (trace st ++ evs))
      (Ok resp)
| run_close_raises attempt mat st after w1 t1 w2 t2 resp evs :
    cred_before_request env (derive_auth_request self timeout) method url
      (original st) (world st) = (after, w1, t1, Returns tt) →
    overrun mat t1 = false →
    session_request env (this self) method url data (Some after) timeout
      kwargs w1 = (w2, t2, Returns resp) →
    overrun mat t2 = false →
    wants_refresh resp attempt = false →
    _auth_request_session self = None →
    evs = evs_authorize attempt mat st after (Returns tt)
          ++ evs_send mat after (Returns resp) →
    run attempt mat st evs
      (mkState (heap_after st after) (sessions st) w2 (clock st + t1 + t2)
         (trace st ++ evs))
      (Raise (AttributeError "'NoneType' object has no attribute 'close'"))
| run_refresh_timeout attempt mat st after w1 t1 w2 t2 resp w3 t3 r3 evs :
    cred_before_request env (derive_auth_request self timeout) method url
      (original st) (world st) = (after, w1, t1, Returns tt) →
    overrun mat t1 = false →
    session_request env (this self) method url data (Some after) timeout
      kwargs w1 = (w2, t2, Returns resp) →
    overrun mat t2 = false →
    wants_refresh resp attempt = true →
    cred_refresh env (derive_auth_request self timeout) w2 = (w3, t3, r3) →
    overrun (remaining mat t2) t3 = true →
    evs = evs_authorize attempt mat st after (Returns tt)
          ++ evs_send mat after (Returns resp)
          ++ evs_refresh (remaining mat t2) r3 ++ [EvGuardTimeout] →
    run attempt mat st evs
      (mkState (heap_after st after) (sessions st) w3
         (clock st + t1 + t2 + t3) (trace st ++ evs))
      (Raise TimeoutError)
| run_refresh_raises attempt mat st after w1 t1 w2 t2 resp w3 t3 e evs :
    cred_before_request env (derive_auth_request self timeout) method url
      (original st) (world st) = (after, w1, t1, Returns tt) →
    overrun mat t1 = false →
    session_request env (this self) method url data (Some after) timeout
      kwargs w1 = (w2, t2, Returns resp) →
    overrun mat t2 = false →
    wants_refresh resp attempt = true →
    cred_refresh env (derive_auth_request self timeout) w2
      = (w3, t3, Raises e) →
    overrun (remaining mat t2) t3 = false →
    evs = evs_authorize attempt mat st after (Returns tt)
          ++ evs_send mat after (Returns resp)
          ++ evs_refresh (remaining mat t2) (Raises e) →
    run attempt mat st evs
      (mkState (heap_after st after) (sessions st) w3
         (clock st + t1 + t2 + t3) (trace st ++ evs))
      (Raise e)
| run_recurse attempt mat st after w1 t1 w2 t2 resp w3 t3 evs0 evs st' r :
    cred_before_request env (derive_auth_request self timeout) method url
      (original st) (world st) = (after, w1, t1, Returns tt) →
    overrun mat t1 = false →
    session_request env (this self) method url data (Some after) timeout
      kwargs w1 = (w2, t2, Returns resp) →
    overrun mat t2 = false →
    wants_refresh resp attempt = true →
    cred_refresh env (derive_auth_request self timeout) w2
      = (w3, t3, Returns tt) →
    overrun (remaining mat t2) t3 = false →
    evs0 = evs_authorize attempt mat st after (Returns tt)
           ++ evs_send mat after (Returns resp)
           ++ evs_refresh (remaining mat t2) (Returns tt) →
    run (attempt + 1) (remaining (remaining mat t2) t3)
      (mkState (heap_after st after) (sessions st) w3
         (clock st + t1 + t2 + t3) (trace st ++ evs0))
      evs st' r →
    run attempt mat st (evs0 ++ evs) st' r.

End Paths.

(** ** A scripted outside world

    A concrete instance of the collaborators, used to run the coroutines
    on explicit inputs: the credentials hold a bearer token and put it in
    the [authorization] header; each refresh and each send consumes the
    next entry of a script giving the time it takes and its outcome. *)
Module Script.

Record world := mkWorld {
  token : string;
  auth_took : Z;
  refreshes : list (Z * raised string);
  sends : list (Z * raised Z)
}.

Definition before_request (a : auth_request_t) (method url : string)
    (hdrs : dict) (w : world) : dict * world * Z * raised unit :=
  (<["authorization" := String.append "Bearer " (token w)]> hdrs, w,
   auth_took w, Returns tt).

Definition refresh (a : auth_request_t) (w : world)
    : world * Z * raised unit :=
  match refreshes w with
  | [] => (w, 0, Returns tt)
  | (took, Returns tok) :: rest =>
      (mkWorld tok (auth_took w) rest (sends w), took, Returns tt)
  | (took, Raises e) :: rest =>
      (mkWorld (token w) (auth_took w) rest (sends w), took, Raises e)
  end.

Definition send (s : handle) (method url : string) (data : option bytes)
    (hdrs : option dict) (timeout : option Z) (kwargs : kwargs_t)
    (w : world) : world * Z * raised ClientResponse :=
  match sends w with
  | [] => (w, 0, Raises (ClientError "connection refused"))
  | (took, r) :: rest =>
      (mkWorld (token w) (auth_took w) (refreshes w) rest, took,
       match r with
       | Returns code => Returns (mkClientResponse code ∅ [])
       | Raises e => Raises e
       end)
  end.

Definition env : Collaborators world :=
  mkCollaborators world before_request refresh send.

(** The program state before anything has run. *)
Definition boot (w : world) : state world := mkState [] [] w 0 [].

Definition url : string := "https://example.test/resource".

(** A session is constructed, with an [auth_request] of the caller's
    ([Request()]) or without, and one call is made:
    [await session.request("GET", url, max_allowed_time=mat)]. *)
Definition construct_and_request (codes : list Z) (attempts : Z)
    (supplied : bool) (mat : option Z) : M world ClientResponse :=
  let! auth_request :=
    (if supplied
     then let! r := Request_init None in ret (Some r)
     else ret None) in
  let! s := AuthorizedSession_init codes attempts None auth_request in
  request env s "GET" url None None mat (Some 180) None [].

(** The session [AuthorizedSession(credentials)] of a fresh program, with
    the usual defaults, and the state its constructor leaves. *)
Definition own : AuthorizedSession :=
  mkAuthorizedSession 0%nat [401] 2 None (mkRequest 1%nat) (Some 1%nat).

Definition ready (objects : list dict) (w : world) : state world :=
  mkState objects [false; false] w 0 [].

Definition response_with (code : Z) : ClientResponse :=
  mkClientResponse code ∅ [].

(** Scripts. Times are in clock ticks. *)

(** Decoration takes 3, the only send takes 8 and is answered 200. *)
Definition slow_authorize : world :=
  mkWorld "t0" 3 [] [(8, Returns 200)].

(** One quick send, answered 200. *)
Definition one_ok : world :=
  mkWorld "t0" 0 [] [(1, Returns 200)].

(** Every send is answered 401; refreshes succeed. *)
Definition always_unauthorized : world :=
  mkWorld "t0" 1 [(1, Returns "t1"); (1, Returns "t2")]
    [(1, Returns 401); (1, Returns 401); (1, Returns 401)].

(** As above, but the second answer takes 20. *)
Definition unauthorized_then_slow : world :=
  mkWorld "t0" 0 [(1, Returns "t1")] [(1, Returns 401); (20, Returns 401)].

(** The send is answered 403, quickly or after 10. *)
Definition forbidden : world :=
  mkWorld "t0" 1 [] [(1, Returns 403)].

Definition forbidden_slow : world :=
  mkWorld "t0" 0 [] [(10, Returns 403)].


(** The first send is answered 401, the one after the refresh 200. *)
Definition expired_once : world :=
  mkWorld "t0" 1 [(1, Returns "t1")] [(1, Returns 401); (1, Returns 200)].

(** The caller's headers. *)
Definition accept_json : dict := {["accept" := "application/json"]}.

End Script.

(** ** Further observations on a trace *)

Definition is_call (e : event) : bool :=
  match e with EvCall _ _ _ => true | _ => false end.

(** The attempt counters the calls of a trace were entered with, in
    order. *)
Fixpoint attempts (tr : list event) : list Z :=
  match tr with
  | [] => []
  | EvCall _ _ attempt :: rest => attempt :: attempts rest
  | _ :: rest => attempts rest
  end.

(** The contents the credentials left in the dicts they decorated, in
    order. *)
Fixpoint decorations (tr : list event) : list dict :=
  match tr with
  | [] => []
  | EvBeforeRequest _ _ _ after _ :: rest => after :: decorations rest
  | _ :: rest => decorations rest
  end.

(** The lock is taken only around a refresh: an acquisition is followed at
    once by one refresh and the release, and no refresh or release occurs
    elsewhere. *)
Fixpoint lock_scoped (tr : list event) : bool :=
  match tr with
  | [] => true
  | EvLockAcquire :: rest =>
      match rest with
      | EvRefresh _ _ :: EvLockRelease :: rest' => lock_scoped rest'
      | _ => false
      end
  | EvRefresh _ _ :: _ => false
  | EvLockRelease :: _ => false
  | _ :: rest => lock_scoped rest
  end.

(** A send that was answered with a status in [codes]. *)
Definition is_refreshable (codes : list Z) (e : event) : bool :=
  match e with
  | EvSend _ _ _ _ _ (Returns resp) => status_in (status resp) codes
  | _ => false
  end.

(** Every decoration and every refresh of a trace is given the callable
    derived from [self._auth_request] and [timeout]; every send goes
    through the session itself with [method], [url] and [timeout]. *)
Definition same_request (self : AuthorizedSession) (method url : string)
    (timeout : option Z) (e : event) : Prop :=
  match e with
  | EvBeforeRequest a _ _ _ _ => a = derive_auth_request self timeout
  | EvRefresh a _ => a = derive_auth_request self timeout
  | EvSend s m u _ t _ =>
      s = this self ∧ m = method ∧ u = url ∧ t = timeout
  | _ => True
  end.

(** Budgets along a trace: the next is no larger than the one before, and
    a budget is not overdrawn. *)
Definition shrinks_to (b b' : option Z) : Prop :=
  match b, b' with
  | Some x, Some y => y ≤ x
  | None, None => True
  | _, _ => False
  end.

Definition not_overdrawn (b : option Z) : Prop :=
  match b with
  | Some x => 0 ≤ x
  | None => True
  end.

(** Calls into the collaborators take time, they do not give any back. *)
Definition takes_time {W} (env : Collaborators W) : Prop :=
  (∀ a method url d w, 0 ≤ (cred_before_request env a method url d w).1.2)
  ∧ (∀ a w, 0 ≤ (cred_refresh env a w).1.2)
  ∧ (∀ s method url data hdrs timeout kwargs w,
       0 ≤ (session_request env s method url data hdrs timeout kwargs w).1.2).

(** The callable handed to the credentials at this event works on an
    aiohttp session that is closed in [ss]. *)
Definition hands_closed_session (ss : list bool) (e : event) : Prop :=
  match e with
  | EvBeforeRequest (Invoker r) _ _ _ _
  | EvBeforeRequest (PartialInvoker r _) _ _ _ _
  | EvRefresh (Invoker r) _
  | EvRefresh (PartialInvoker r _) _ => ss !! session r = Some true
  | _ => True
  end.

(** ** A steady outside world

    Every call into a collaborator takes one tick; the credentials never
    raise; the sends are answered with the statuses of a list, in order,
    and refused once the list is used up. *)
Module Steady.

Definition before_request (a : auth_request_t) (method url : string)
    (hdrs : dict) (w : list Z) : dict * list Z * Z * raised unit :=
  (<["authorization" := "Bearer t"]> hdrs, w, 1, Returns tt).

Definition refresh (a : auth_request_t) (w : list Z)
    : list Z * Z * raised unit :=
  (w, 1, Returns tt).

Definition send (s : handle) (method url : string) (data : option bytes)
    (hdrs : option dict) (timeout : option Z) (kwargs : kwargs_t)
    (w : list Z) : list Z * Z * raised ClientResponse :=
  match w with
  | [] => (w, 1, Raises (ClientError "connection refused"))
  | code :: rest => (rest, 1, Returns (mkClientResponse code ∅ []))
  end.

Definition env : Collaborators (list Z) :=
  mkCollaborators (list Z) before_request refresh send.

End Steady.

(** ** The callable handed to the credentials *)

(** [_DEFAULT_TIMEOUT = 180  # in seconds] *)
Definition _DEFAULT_TIMEOUT : Z := 180.

(** The invoker behind the callable. *)
Definition invoker_of (a : auth_request_t) : Request :=
  match a with
  | Invoker r => r
  | PartialInvoker r _ => r
  end.

(** [auth_request(url, method=method, body=body, headers=headers,
    **kwargs)] as the credentials call it; [timeout_kw] is the [timeout]
    keyword if they pass one. On the invoker itself a missing keyword is
    the default of [Request.__call__]; on
    [functools.partial(invoker, timeout=t)] it is [t], and a keyword given
    at the call replaces the one of the partial. *)
Definition auth_request_call {W} (env : Collaborators W) (a : auth_request_t)
    (url method : string) (body : option bytes) (hdrs : option dict)
    (timeout_kw : option (option Z)) (kwargs : kwargs_t) : M W _Response :=
  match a with
  | Invoker r =>
      Request_call env r url method body hdrs
        (default (Some _DEFAULT_TIMEOUT) timeout_kw) kwargs
  | PartialInvoker r t =>
      Request_call env r url method body hdrs (default (Some t) timeout_kw)
        kwargs
  end.

(** ** [AuthorizedSession.configure_mtls_channel] *)

(** [configure_mtls_channel(self, client_cert_callback=None)]: the body of
    the method is its docstring and nothing else, the statements after the
    description being part of the string literal; the method returns
    [None]. *)
Definition configure_mtls_channel {W C} (self : AuthorizedSession)
    (client_cert_callback : option C) : M W unit :=
  ret tt.

(** * Properties *)

(** ** Traces *)

Lemma count_app p (l1 l2 : list event) :
  count p (l1 ++ l2) = (count p l1 + count p l2)%nat.
Proof. induction l1 as [|e l1 IH]; cbn; [done|rewrite IH; lia]. Qed.

Lemma responses_app (l1 l2 : list event) :
  responses (l1 ++ l2) = responses l1 ++ responses l2.
Proof.
  induction l1 as [|e l1 IH]; cbn; [done|].
  destruct e; cbn; by rewrite ?IH.
Qed.

Lemma decorated_locs_app (l1 l2 : list event) :
  decorated_locs (l1 ++ l2) = decorated_locs l1 ++ decorated_locs l2.
Proof.
  induction l1 as [|e l1 IH]; cbn; [done|].
  destruct e; cbn; by rewrite ?IH.
Qed.

Lemma decorated_locs_length tr :
  length (decorated_locs tr) = length (decorations tr).
Proof. induction tr as [|[] tr IH]; cbn; congruence. Qed.

(** ** The coroutines follow the paths *)

Section Soundness.

Context {W : Type} (env : Collaborators W).

(** What a guarded block amounts to, in terms of [overrun] and
    [remaining]. *)
Lemma with_TimeoutGuard_eq {A} (t : option Z) (err : exn) (body : M W A)
    st :
  with_TimeoutGuard t err body st =
  let '(st2, rb) :=
    body (mkState (heap st) (sessions st) (world st) (clock st)
            (trace st ++ [EvGuardEnter t])) in
  let elapsed := clock st2 - clock st in
  let fired :=
    (mkState (heap st2) (sessions st2) (world st2) (clock st2)
       (trace st2 ++ [EvGuardTimeout]), Raise err) in
  match rb with
  | OutOfFuel => (st2, OutOfFuel)
  | Ok a =>
      if overrun t elapsed then fired
      else (st2, Ok (a, mkTimeoutGuard t err (clock st) (remaining t elapsed)))
  | Raise e => if overrun t elapsed then fired else (st2, Raise e)
  end.
Proof.
  unfold with_TimeoutGuard, TimeoutGuard_enter, TimeoutGuard_exit, log. cbn.
  destruct (body _) as [st2 [a|e|]]; cbn; try reflexivity.
  all: destruct (overrun t _); reflexivity.
Qed.

(** The copy is the newest object of the store. *)
Lemma heap_get_fresh (h : list dict) (d : dict) s w c tr :
  heap_get (length h) (mkState (W:=W) (h ++ [d]) s w c tr) = d.
Proof.
  unfold heap_get. cbn. rewrite lookup_app_r by lia.
  by rewrite Nat.sub_diag.
Qed.

Lemma heap_get_after (h : list dict) (d after : dict) s w c tr :
  heap_get (length h)
    (mkState (W:=W) (<[length h := after]> (h ++ [d])) s w c tr) = after.
Proof.
  unfold heap_get. cbn.
  rewrite list_lookup_insert_eq; [done|]. rewrite length_app. cbn. lia.
Qed.

Lemma copy_headers (hdrs : option loc) (st : state W) tr :
  match hdrs with
  | Some h => dict_copy h
  | None => dict_new ∅
  end (mkState (heap st) (sessions st) (world st) (clock st) tr)
  = (mkState (heap st ++ [original hdrs st]) (sessions st) (world st)
       (clock st) tr, Ok (length (heap st))).
Proof. destruct hdrs; reflexivity. Qed.

(** Normalise the state after a step: project the fields and write the
    trace as [trace st ++ events]. *)
Ltac settle :=
  cbv zeta; cbn [heap sessions world clock trace remaining_timeout];
  rewrite <- ?app_assoc; cbn [app].

(** Close a way out of the body with the rule [rule] for it. *)
Ltac leave_by rule :=
  settle; (eexists _, _, _; split; [reflexivity|]); eapply rule; eauto.

Lemma request_rec_run self method url data hdrs timeout kwargs fuel :
  ∀ attempt mat st,
  (Z.to_nat (_max_refresh_attempts self - attempt) < fuel)%nat →
  ∃ evs st' r,
    request_rec env fuel self method url data hdrs mat timeout attempt kwargs
      st = (st', r)
    ∧ run env self method url data hdrs timeout kwargs attempt mat st evs st'
        r.
Proof.
  induction fuel as [|fuel IH]; intros attempt mat st Hfuel; [lia|].
  cbn [request_rec].
  unfold bind at 1. cbn [log].
  unfold bind at 1. rewrite copy_headers.
  (* step 3: before_request under the first guard *)
  unfold bind at 1. rewrite with_TimeoutGuard_eq.
  unfold credentials_before_request at 1. settle.
  rewrite !heap_get_fresh.
  destruct (cred_before_request env _ method url _ _)
    as [[[after w1] t1] r1] eqn:Hbr.
  settle. replace (clock st + t1 - clock st) with t1 by lia.
  destruct (overrun mat t1) eqn:Ho1.
  { destruct r1 as [[]|e1]; leave_by @run_authorize_timeout. }
  destruct r1 as [[]|e1]; [|leave_by @run_authorize_raises].
  (* step 4: the send under the second guard *)
  unfold bind at 1. rewrite with_TimeoutGuard_eq.
  unfold ClientSession_request at 1. settle.
  rewrite heap_get_after.
  destruct (session_request env _ method url data _ timeout kwargs w1)
    as [[w2 t2] r2] eqn:Hsr.
  settle. replace (clock st + t1 + t2 - (clock st + t1)) with t2 by lia.
  destruct (overrun mat t2) eqn:Ho2.
  { destruct r2 as [resp|e2]; leave_by @run_send_timeout. }
  destruct r2 as [resp|e2]; [|leave_by @run_send_raises].
  settle. fold (wants_refresh self resp attempt).
  destruct (wants_refresh self resp attempt) eqn:Hwant.
  - (* step 5: refresh under the third guard, then recurse *)
    unfold bind at 1. rewrite with_TimeoutGuard_eq.
    unfold with_refresh_lock, run_in_executor, credentials_refresh, log.
    settle.
    destruct (cred_refresh env _ w2) as [[w3 t3] r3] eqn:Hrf.
    settle.
    replace (clock st + t1 + t2 + t3 - (clock st + t1 + t2)) with t3 by lia.
    destruct (overrun (remaining mat t2) t3) eqn:Ho3.
    { destruct r3 as [[]|e3]; leave_by @run_refresh_timeout. }
    destruct r3 as [[]|e3]; [|leave_by @run_refresh_raises].
    settle.
    assert (Hlt : attempt < _max_refresh_attempts self).
    { unfold wants_refresh in Hwant. apply andb_prop in Hwant as [_ Hlt].
      by apply Z.ltb_lt in Hlt. }
    edestruct (IH (attempt + 1) (remaining (remaining mat t2) t3))
      as (evs & st' & r & Heq & Hrun); [lia|].
    eexists _, st', r. split; [exact Heq|].
    eapply run_recurse; eauto.
  - (* steps 6 and 7: close the auth-request session and return *)
    unfold bind at 1. unfold ClientSession_close.
    destruct (_auth_request_session self) as [s|] eqn:Hs.
    + cbn [ret]. leave_by @run_return.
    + cbn [raise]. leave_by @run_close_raises.
Qed.

End Soundness.

Section PathFacts.

Context {W : Type} (env : Collaborators W).
Context (self : AuthorizedSession) (method url : string)
  (data : option bytes) (hdrs : option loc) (timeout : option Z)
  (kwargs : kwargs_t).

(** Induction on the paths; in the case of the recursive call the first
    frame has made the events [evs0] and the refresh has answered; [IH] is
    the statement for the rest of the call. *)
Ltac along_the_paths :=
  induction 1 as [| | | | | | | |
    attempt mat st after w1 t1 w2 t2 resp1 w3 t3 evs0 evs st' r
    Hbr Ho1 Hsr Ho2 Hwant Hrf Ho3 Hevs0 Hrun IH].

Lemma run_trace attempt mat st evs st' r :
  run env self method url data hdrs timeout kwargs attempt mat st evs st' r →
  trace st' = trace st ++ evs.
Proof.
  induction 1; try reflexivity.
  match goal with IH : trace _ = _ |- _ => rewrite IH end.
  cbn. by rewrite <- app_assoc.
Qed.

Lemma run_not_out_of_fuel attempt mat st evs st' r :
  run env self method url data hdrs timeout kwargs attempt mat st evs st' r →
  r ≠ OutOfFuel.
Proof. induction 1; done. Qed.

Lemma wants_refresh_lt resp attempt :
  wants_refresh self resp attempt = true →
  attempt < _max_refresh_attempts self.
Proof.
  unfold wants_refresh. intros [_ H]%andb_prop. by apply Z.ltb_lt.
Qed.

Lemma wants_refresh_status resp attempt :
  wants_refresh self resp attempt = true →
  status_in (status resp) (_refresh_status_codes self) = true.
Proof. unfold wants_refresh. by intros [H _]%andb_prop. Qed.

Lemma wants_refresh_exhausted resp attempt :
  wants_refresh self resp attempt = false →
  status_in (status resp) (_refresh_status_codes self) = true →
  _max_refresh_attempts self ≤ attempt.
Proof.
  unfold wants_refresh. intros H Hs. rewrite Hs in H. cbn in H.
  by apply Z.ltb_ge.
Qed.

Lemma run_refresh_bound attempt mat st evs st' r :
  run env self method url data hdrs timeout kwargs attempt mat st evs st' r →
  (count is_refresh evs ≤ Z.to_nat (_max_refresh_attempts self - attempt))%nat.
Proof.
  induction 1; subst; rewrite ?count_app; cbn; try lia.
  all: match goal with
       | H : wants_refresh _ _ _ = true |- _ => apply wants_refresh_lt in H
       end; lia.
Qed.


(** When no collaborator raises and no guard fires, a session that owns
    its auth-request session returns the response of its last send. *)
Lemma run_returns_last attempt mat st evs st' r :
  run env self method url data hdrs timeout kwargs attempt mat st evs st' r →
  is_Some (_auth_request_session self) →
  count is_failure evs = 0%nat →
  count is_guard_timeout evs = 0%nat →
  ∃ resp,
    r = Ok resp
    ∧ last (responses evs) = Some (Returns resp)
    ∧ (status_in (status resp) (_refresh_status_codes self) = true →
       count is_refresh evs
       = Z.to_nat (_max_refresh_attempts self - attempt)).
Proof.
  along_the_paths;
    intros Hown Hfail Hguard; subst; cbn in Hfail, Hguard; try done.
  - exists resp. split; [done|]. split; [done|].
    intros Hst. cbn.
    match goal with
    | H : wants_refresh _ _ _ = false |- _ =>
        apply wants_refresh_exhausted in H; [lia|done]
    end.
  - destruct Hown as [s Hs]. congruence.
  - destruct (IH Hown Hfail Hguard) as (resp' & -> & Hlast & Hcount).
    exists resp'. split; [done|]. split.
    + rewrite responses_app, last_app, Hlast. done.
    + intros Hst. rewrite count_app, (Hcount Hst). cbn.
      apply wants_refresh_lt in Hwant. lia.
Qed.

(** A first response that does not call for a refresh ends the call. *)
Lemma run_first_response attempt mat st evs st' r resp :
  run env self method url data hdrs timeout kwargs attempt mat st evs st' r →
  head (responses evs) = Some (Returns resp) →
  status_in (status resp) (_refresh_status_codes self) = false →
  count is_send evs = 1%nat
  ∧ count is_refresh evs = 0%nat
  ∧ (is_Some (_auth_request_session self) →
     count is_guard_timeout evs = 0%nat → r = Ok resp).
Proof.
  destruct 1; intros Hhead Hst; subst; cbn in Hhead; simplify_eq;
    try (match goal with
         | H : wants_refresh _ _ _ = true |- _ =>
             apply wants_refresh_status in H; congruence
         end).
  all: cbn; repeat split; try done.
  intros [s Hs]. congruence.
Qed.


(** Without a budget no guard fires and [None] is what every guard and
    every recursive call receives. *)
Lemma run_unlimited attempt st evs st' r :
  run env self method url data hdrs timeout kwargs attempt None st evs st'
    r →
  count is_guard_timeout evs = 0%nat ∧ Forall unlimited evs.
Proof.
  remember None as mat eqn:Hmat.
  along_the_paths;
    subst; try discriminate.
  1-5: split; [done|]; repeat constructor.
  destruct IH as [IHc IHf]; [done|].
  split.
  - by rewrite count_app, IHc.
  - apply Forall_app. split; [|done]. repeat constructor.
Qed.


Lemma heap_after_length (st : state W) after :
  length (heap_after hdrs st after) = S (length (heap st)).
Proof.
  unfold heap_after. rewrite length_insert, length_app. cbn. lia.
Qed.

Lemma heap_after_lookup (st : state W) after (l : loc) :
  (l < length (heap st))%nat →
  heap_after hdrs st after !! l = heap st !! l.
Proof.
  intros Hl. unfold heap_after.
  rewrite list_lookup_insert_ne by lia. by rewrite lookup_app_l.
Qed.

Lemma original_heap_after (st : state W) after s (w : W) c tr :
  (∀ h, hdrs = Some h → (h < length (heap st))%nat) →
  original hdrs (mkState (heap_after hdrs st after) s w c tr)
  = original hdrs st.
Proof.
  intros Hvalid. pose proof (heap_after_lookup st after) as Hlk.
  unfold original. destruct hdrs as [h|]; [|done].
  unfold heap_get. cbn [heap]. rewrite Hlk; auto.
Qed.

(** The discipline of the headers: every call receives the caller's
    argument, every decoration starts from the caller's contents in an
    object of its own, every send carries the decoration of its attempt,
    and the objects that existed before the call are left as they were. *)
Lemma run_headers attempt mat st evs st' r :
  run env self method url data hdrs timeout kwargs attempt mat st evs st' r →
  (∀ h, hdrs = Some h → (h < length (heap st))%nat) →
  Forall (starts_from hdrs (original hdrs st) (length (heap st))) evs
  ∧ sends_decorated None evs
  ∧ (∀ l : loc, (l < length (heap st))%nat → heap st' !! l = heap st !! l)
  ∧ decorated_locs evs
    = seq (length (heap st)) (length (decorated_locs evs)).
Proof.
  along_the_paths;
    intros Hvalid; subst.
  1-8: (split; [repeat constructor|]);
       (split; [cbn; eauto 10|]);
       (split; [intros l Hl; cbn [heap]; by apply heap_after_lookup|done]).
  destruct IH as (IHf & IHs & IHh & IHl).
  { intros h Hh. cbn [heap]. rewrite heap_after_length.
    specialize (Hvalid h Hh). lia. }
  cbn [heap] in IHf, IHh, IHl. rewrite heap_after_length in IHf, IHh, IHl.
  rewrite original_heap_after in IHf by done.
  split; [|split; [|split]].
  - apply Forall_app. split; [repeat constructor|].
    eapply Forall_impl; [exact IHf|].
    intros [] He; cbn in *; try done. destruct He. split; [lia|done].
  - cbn. eauto 10.
  - intros l Hl. rewrite IHh by lia. by apply heap_after_lookup.
  - rewrite decorated_locs_app. cbn. by rewrite IHl at 1.
Qed.

Lemma heap_after_app (st : state W) after :
  heap_after hdrs st after = heap st ++ [after].
Proof.
  unfold heap_after.
  rewrite insert_app_r_alt by lia. by rewrite Nat.sub_diag.
Qed.

(** The store grows by the decorated copy of each attempt and nothing
    else. *)
Lemma run_heap attempt mat st evs st' r :
  run env self method url data hdrs timeout kwargs attempt mat st evs st' r →
  heap st' = heap st ++ decorations evs
  ∧ length (decorations evs) = count is_call evs.
Proof.
  along_the_paths; subst; cbn [heap]; rewrite ?heap_after_app.
  1-8: done.
  destruct IH as [IHh IHl]. cbn [heap] in IHh. rewrite IHh, heap_after_app.
  split; [by rewrite <- app_assoc|]. cbn. by rewrite IHl.
Qed.

(** However it ends, a call begins by having a new dict decorated: the
    copy of the caller's headers, or an empty dict when there are none. *)
Lemma run_begins attempt mat st evs st' r :
  run env self method url data hdrs timeout kwargs attempt mat st evs st' r →
  ∃ after r1 rest,
    evs = EvCall hdrs mat attempt :: EvGuardEnter mat
          :: EvBeforeRequest (derive_auth_request self timeout)
               (length (heap st)) (original hdrs st) after r1
          :: rest.
Proof. destruct 1; subst; cbn; eauto. Qed.

(** When no collaborator raises and no guard fires, a session that owns
    its auth-request session returns, and every call of the recursion has
    made its send. *)
Lemma run_proceeds attempt mat st evs st' r :
  run env self method url data hdrs timeout kwargs attempt mat st evs st' r →
  is_Some (_auth_request_session self) →
  count is_failure evs = 0%nat →
  count is_guard_timeout evs = 0%nat →
  ∃ resp, r = Ok resp ∧ count is_send evs = count is_call evs.
Proof.
  along_the_paths;
    intros Hown Hfail Hguard; subst; cbn in Hfail, Hguard; try done.
  - by exists resp.
  - destruct Hown as [s Hs]. congruence.
  - destruct (IH Hown Hfail Hguard) as (resp' & -> & Hcount).
    exists resp'. split; [done|].
    rewrite !count_app, Hcount. reflexivity.
Qed.

(** What the final [close()] does. *)
Lemma run_return_closes attempt mat st evs st' r resp :
  run env self method url data hdrs timeout kwargs attempt mat st evs st' r →
  r = Ok resp →
  ∃ s, _auth_request_session self = Some s
       ∧ last evs = Some (EvClose s)
       ∧ count is_close evs = 1%nat.
Proof.
  along_the_paths;
    intros Hr; subst; try discriminate.
  - eexists. split; [eassumption|]. done.
  - destruct (IH eq_refl) as (s & Hs & Hlast & Hcount).
    exists s. split; [done|]. split.
    + by rewrite last_app, Hlast.
    + rewrite count_app, Hcount. done.
Qed.

Lemma run_without_own_session attempt mat st evs st' r :
  run env self method url data hdrs timeout kwargs attempt mat st evs st' r →
  _auth_request_session self = None →
  (∀ resp, r ≠ Ok resp) ∧ count is_close evs = 0%nat.
Proof.
  along_the_paths;
    intros Hnone; subst; try done; try congruence.
  destruct (IH Hnone) as [IHr IHc]. split; [done|].
  by rewrite count_app, IHc.
Qed.

(** The second guard of a call, the one around the send, is entered with
    the budget the call received. *)
Lemma run_send_guard attempt mat st evs st' r b :
  run env self method url data hdrs timeout kwargs attempt mat st evs st' r →
  budgets evs !! 1%nat = Some b → b = mat.
Proof.
  destruct 1; subst; cbn; intros Hev; by simplify_eq.
Qed.

End PathFacts.

Section RequestFacts.

Context {W : Type} (env : Collaborators W).

Lemma request_run self method url data hdrs mat timeout attempt_kw kwargs
    (st : state W) :
  let c := request env self method url data hdrs mat timeout attempt_kw
             kwargs in
  run env self method url data hdrs timeout kwargs (default 0 attempt_kw) mat
    st (emitted c st) (final c st) (outcome c st).
Proof.
  intros c. subst c. unfold emitted, final, outcome, request.
  destruct (request_rec_run env self method url data hdrs timeout kwargs
              (request_fuel self (default 0 attempt_kw))
              (default 0 attempt_kw) mat st)
    as (evs & st' & r & Heq & Hrun).
  { unfold request_fuel. lia. }
  rewrite Heq. cbn [fst snd].
  rewrite (run_trace _ _ _ _ _ _ _ _ _ _ _ _ _ _ Hrun), drop_app_length.
  exact Hrun.
Qed.

End RequestFacts.

Section Claims.

Context {W : Type} (env : Collaborators W).

(** [request] never exhausts the fuel it computes for itself: it returns
    or raises. *)
Theorem request_terminates self method url data hdrs mat timeout attempt_kw
    kwargs (st : state W) :
  outcome (request env self method url data hdrs mat timeout attempt_kw
             kwargs) st ≠ OutOfFuel.
Proof.
  eapply run_not_out_of_fuel, request_run.
Qed.

(** The trace only grows. *)
Theorem request_trace self method url data hdrs mat timeout attempt_kw kwargs
    (st : state W) :
  let c := request env self method url data hdrs mat timeout attempt_kw
             kwargs in
  trace (final c st) = trace st ++ emitted c st.
Proof.
  cbv zeta. eapply run_trace, request_run.
Qed.

(** Whatever time the decoration took, the guard around the send is
    entered with [max_allowed_time] itself. *)
Theorem request_send_guard_budget self method url data hdrs mat timeout
    attempt_kw kwargs (st : state W) b :
  let c := request env self method url data hdrs mat timeout attempt_kw
             kwargs in
  budgets (emitted c st) !! 1%nat = Some b → b = mat.
Proof.
  cbv zeta. eapply run_send_guard, request_run.
Qed.

(** A session that was handed its [auth_request] never returns from
    [request], and closes nothing. *)
Theorem request_supplied_auth_request self method url data hdrs mat timeout
    attempt_kw kwargs (st : state W) :
  let c := request env self method url data hdrs mat timeout attempt_kw
             kwargs in
  _auth_request_session self = None →
  (∀ resp, outcome c st ≠ Ok resp) ∧ count is_close (emitted c st) = 0%nat.
Proof.
  cbv zeta. eapply run_without_own_session, request_run.
Qed.

(** A call that returns has closed the session's own auth-request session,
    once, as the last thing it did. *)
Theorem request_return_closes self method url data hdrs mat timeout
    attempt_kw kwargs (st : state W) resp :
  let c := request env self method url data hdrs mat timeout attempt_kw
             kwargs in
  outcome c st = Ok resp →
  ∃ s, _auth_request_session self = Some s
       ∧ last (emitted c st) = Some (EvClose s)
       ∧ count is_close (emitted c st) = 1%nat.
Proof.
  cbv zeta. eapply run_return_closes, request_run.
Qed.

(** The constructor creates the auth-request session only when no
    [auth_request] is supplied. *)
Theorem AuthorizedSession_init_auth_request_session codes attempts
    refresh_timeout auth_request (st : state W) :
  ∃ s, outcome (AuthorizedSession_init codes attempts refresh_timeout
                  auth_request) st = Ok s
       ∧ _auth_request_session s
         = match auth_request with
           | None => Some (S (length (sessions st)))
           | Some _ => None
           end.
Proof.
  destruct auth_request; eexists; (split; [reflexivity|]); cbn; [done|].
  rewrite length_app. cbn. f_equal. lia.
Qed.

(** C3 (amended): an outermost call performs at most
    [max_refresh_attempts] refreshes (none if that bound is not positive);
    when the session owns its auth-request session and, during the call, no
    collaborator raises and no time guard fires, the call returns the
    response of its last send, and if that response still has a refreshable
    status the refreshes were exhausted. *)
Theorem request_refresh_attempts_bounded self method url data hdrs mat
    timeout kwargs (st : state W) :
  let c := request env self method url data hdrs mat timeout None kwargs in
  Z.of_nat (count is_refresh (emitted c st))
    ≤ Z.max 0 (_max_refresh_attempts self)
  ∧ (is_Some (_auth_request_session self) →
     count is_failure (emitted c st) = 0%nat →
     count is_guard_timeout (emitted c st) = 0%nat →
     ∃ resp,
       outcome c st = Ok resp
       ∧ last (responses (emitted c st)) = Some (Returns resp)
       ∧ (status_in (status resp) (_refresh_status_codes self) = true →
          Z.of_nat (count is_refresh (emitted c st))
          = Z.max 0 (_max_refresh_attempts self))).
Proof.
  intros c.
  pose proof (request_run env self method url data hdrs mat timeout None
                kwargs st) as Hrun.
  cbv zeta in Hrun. fold c in Hrun.
  change (default 0 None) with 0 in Hrun. split.
  - apply run_refresh_bound in Hrun. lia.
  - intros Hown Hfail Hguard.
    destruct (run_returns_last _ _ _ _ _ _ _ _ _ _ _ _ _ _ Hrun Hown Hfail
                Hguard) as (resp & Hout & Hlast & Hcount).
    exists resp. split; [done|]. split; [done|].
    intros Hst. rewrite (Hcount Hst). lia.
Qed.

(** C4: with a caller-supplied headers dict [h], the dict is left as it
    was, the credentials never decorate it (only objects created during the
    call), every call of the recursion receives [h] itself, every
    decoration starts from the caller's contents, and every send carries
    the decoration made for it. *)
Theorem request_spares_headers self method url data (h : loc) mat timeout
    attempt_kw kwargs (st : state W) :
  let c := request env self method url data (Some h) mat timeout attempt_kw
             kwargs in
  (h < length (heap st))%nat →
  heap (final c st) !! h = heap st !! h
  ∧ ¬ In h (decorated_locs (emitted c st))
  ∧ Forall (starts_from (Some h) (heap_get h st) (length (heap st)))
      (emitted c st)
  ∧ sends_decorated None (emitted c st).
Proof.
  intros c Hh.
  pose proof (request_run env self method url data (Some h) mat timeout
                attempt_kw kwargs st) as Hrun.
  cbv zeta in Hrun. fold c in Hrun.
  apply run_headers in Hrun as (Hf & Hs & Hheap & Hlocs).
  2:{ intros h' [= <-]. done. }
  split; [by apply Hheap|]. split; [|done].
  rewrite Hlocs. intros Hin%in_seq. lia.
Qed.

(** C5 (amended): when the first response has a status outside
    [refresh_status_codes], the call makes exactly one send and no refresh;
    and if the session owns its auth-request session and no time guard
    fires, that response is what the call returns. *)
Theorem request_without_refresh self method url data hdrs mat timeout
    attempt_kw kwargs (st : state W) resp :
  let c := request env self method url data hdrs mat timeout attempt_kw
             kwargs in
  head (responses (emitted c st)) = Some (Returns resp) →
  status_in (status resp) (_refresh_status_codes self) = false →
  count is_send (emitted c st) = 1%nat
  ∧ count is_refresh (emitted c st) = 0%nat
  ∧ (is_Some (_auth_request_session self) →
     count is_guard_timeout (emitted c st) = 0%nat →
     outcome c st = Ok resp).
Proof.
  cbv zeta. eapply run_first_response, request_run.
Qed.

(** C6: the invoker calls the transport once; a response comes back
    wrapped, exposing its status, headers and body; an
    [aiohttp.ClientError] or an [asyncio.TimeoutError] comes back as
    [TransportError] of that very exception. *)
Theorem Request_call_single_attempt (self : Request) url method body hdrs
    timeout kwargs (st : state W) :
  let c := Request_call env self url method body hdrs timeout kwargs in
  let r := (session_request env (session self) method url body hdrs timeout
              kwargs (world st)).2 in
  emitted c st = [EvSend (session self) method url hdrs timeout r]
  ∧ match r with
    | Returns resp =>
        ∃ x, outcome c st = Ok x
             ∧ _Response_status x = status resp
             ∧ _Response_headers x = headers resp
             ∧ _Response_data x = content resp
    | Raises e =>
        outcome c st
        = Raise (if is_ClientError e || is_asyncio_TimeoutError e
                 then TransportError e else e)
    end.
Proof.
  unfold emitted, outcome, Request_call, wrap_transport_errors, bind,
    ClientSession_request, ret.
  destruct (session_request env _ _ _ _ _ _ _ _) as [[w took] [resp|e]];
    cbn.
  - rewrite drop_app_length. split; [done|]. by eexists.
  - destruct (is_ClientError e); cbn; [|destruct (is_asyncio_TimeoutError e)];
      cbn; by rewrite drop_app_length.
Qed.


(** C8: with [max_allowed_time=None] no time guard fires, at any depth of
    the recursion and whatever time the collaborators take; every guard is
    entered with [None] and every recursive call receives [None]. *)
Theorem request_unlimited self method url data hdrs timeout attempt_kw kwargs
    (st : state W) :
  let c := request env self method url data hdrs None timeout attempt_kw
             kwargs in
  count is_guard_timeout (emitted c st) = 0%nat
  ∧ Forall unlimited (emitted c st).
Proof.
  cbv zeta. eapply run_unlimited, request_run.
Qed.

(** C10: with [headers=None] the call does proceed: the first thing it
    does is to have a new, empty dict decorated by the credentials, the
    object it has just added to the store. Every call of the recursion
    receives [None] again and has a new empty dict of its own decorated:
    the dicts decorated are the next free locations in order, one for each
    call, and they are all that is added to the store; every send carries
    the decoration made for it. When the session owns its auth-request
    session, no collaborator raises and no time guard fires, the call
    returns, each call of the recursion having made its send. *)
Theorem request_without_headers self method url data mat timeout attempt_kw
    kwargs (st : state W) :
  let c := request env self method url data None mat timeout attempt_kw
             kwargs in
  let n := length (heap st) in
  (∃ after r rest,
     emitted c st
     = EvCall None mat (default 0 attempt_kw) :: EvGuardEnter mat
       :: EvBeforeRequest (derive_auth_request self timeout) n ∅ after r
       :: rest)
  ∧ Forall (starts_from None ∅ n) (emitted c st)
  ∧ decorated_locs (emitted c st) = seq n (count is_call (emitted c st))
  ∧ heap (final c st) = heap st ++ decorations (emitted c st)
  ∧ sends_decorated None (emitted c st)
  ∧ (is_Some (_auth_request_session self) →
     count is_failure (emitted c st) = 0%nat →
     count is_guard_timeout (emitted c st) = 0%nat →
     ∃ resp,
       outcome c st = Ok resp
       ∧ count is_send (emitted c st) = count is_call (emitted c st)).
Proof.
  intros c n.
  pose proof (request_run env self method url data None mat timeout
                attempt_kw kwargs st) as Hrun.
  cbv zeta in Hrun. fold c in Hrun.
  pose proof (run_begins _ _ _ _ _ _ _ _ _ _ _ _ _ _ Hrun) as Hbegin.
  pose proof (run_heap _ _ _ _ _ _ _ _ _ _ _ _ _ _ Hrun) as [Hheap Hlen].
  pose proof (run_proceeds _ _ _ _ _ _ _ _ _ _ _ _ _ _ Hrun) as Hgo.
  apply run_headers in Hrun as (Hf & Hs & _ & Hlocs); [|done].
  split; [exact Hbegin|]. split; [exact Hf|]. split.
  - rewrite Hlocs, decorated_locs_length, Hlen. reflexivity.
  - split; [exact Hheap|]. split; [exact Hs|exact Hgo].
Qed.

End Claims.

(** ** Runs against the scripted world *)

(** [Script.own] in [Script.ready] is what the constructor builds from
    nothing when it is given no [auth_request]. *)
Example own_is_constructed w :
  AuthorizedSession_init [401] 2 None None (Script.boot w)
  = (Script.ready [] w, Ok Script.own).
Proof. reflexivity. Qed.

(** C1: the budget is 10, the decoration takes 3 and the send 8. The guard
    around the send is entered with the whole budget again, not with the 7
    that are left, so the send is let through and the call returns at
    11. *)
Example send_guard_budget_not_reduced :
  let c := Script.construct_and_request [401] 2 false (Some 10) in
  let st := Script.boot Script.slow_authorize in
  budgets (emitted c st) = [Some 10; Some 10]
  ∧ budgets (emitted c st) !! 1%nat ≠ Some (remaining (Some 10) 3)
  ∧ outcome c st = Ok (Script.response_with 200)
  ∧ clock (final c st) = 11.
Proof. vm_compute. done. Qed.

(** C2: a session constructed with an [auth_request] of the caller's has no
    auth-request session of its own; the send is answered 200, and the
    final [close()] raises instead of being skipped. *)
Example supplied_auth_request_close_raises :
  let c := Script.construct_and_request [401] 2 true None in
  let st := Script.boot Script.one_ok in
  responses (emitted c st) = [Returns (Script.response_with 200)]
  ∧ count is_close (emitted c st) = 0%nat
  ∧ outcome c st
    = Raise (AttributeError "'NoneType' object has no attribute 'close'").
Proof. vm_compute. done. Qed.

(** C3, as stated, fails: one refresh is allowed and made, every response
    is a 401, no collaborator raises; the second send overruns what is left
    of the budget and the call raises the timeout error instead of
    returning the last response. *)
Lemma refresh_exhausted_then_timeout :
  let c := Script.construct_and_request [401] 1 false (Some 10) in
  let st := Script.boot Script.unauthorized_then_slow in
  responses (emitted c st)
  = [Returns (Script.response_with 401); Returns (Script.response_with 401)]
  ∧ count is_refresh (emitted c st) = 1%nat
  ∧ count is_failure (emitted c st) = 0%nat
  ∧ outcome c st = Raise TimeoutError
  ∧ ¬ (∃ resp, outcome c st = Ok resp).
Proof.
  vm_compute. repeat split; try done. by intros [resp Hresp].
Qed.

(** Three 401 in a row with two refreshes allowed and no budget: the
    conditions of the amended C3 hold and the third 401 is returned. *)
Lemma request_refresh_attempts_bounded_witness :
  let c := request Script.env Script.own "GET" Script.url None None None
             (Some 180) None [] in
  let st := Script.ready [] Script.always_unauthorized in
  (is_Some (_auth_request_session Script.own)
   ∧ count is_failure (emitted c st) = 0%nat
   ∧ count is_guard_timeout (emitted c st) = 0%nat)
  ∧ ∃ resp,
      outcome c st = Ok resp
      ∧ last (responses (emitted c st)) = Some (Returns resp)
      ∧ (status_in (status resp) (_refresh_status_codes Script.own) = true →
         Z.of_nat (count is_refresh (emitted c st))
         = Z.max 0 (_max_refresh_attempts Script.own)).
Proof.
  intros c st.
  assert (H1 : is_Some (_auth_request_session Script.own))
    by (vm_compute; eauto).
  assert (H2 : count is_failure (emitted c st) = 0%nat)
    by (vm_compute; reflexivity).
  assert (H3 : count is_guard_timeout (emitted c st) = 0%nat)
    by (vm_compute; reflexivity).
  split; [exact (conj H1 (conj H2 H3))|].
  exact (proj2 (request_refresh_attempts_bounded Script.env Script.own "GET"
                  Script.url None None None (Some 180) []
                  (Script.ready [] Script.always_unauthorized)) H1 H2 H3).
Defined.

(** A caller's dict in the store, a 401 then a 200: the dict is intact
    after the two sends. *)
Lemma request_spares_headers_witness :
  let c := request Script.env Script.own "GET" Script.url None (Some 0%nat)
             None (Some 180) None [] in
  let st := Script.ready [Script.accept_json] Script.expired_once in
  (0 < length (heap st))%nat
  ∧ heap (final c st) !! 0%nat = Some Script.accept_json
  ∧ count is_send (emitted c st) = 2%nat.
Proof.
  intros c st.
  assert (H1 : (0 < length (heap st))%nat) by (cbn; lia).
  split; [exact H1|]. split; [|vm_compute; reflexivity].
  exact (proj1 (request_spares_headers Script.env Script.own "GET"
                  Script.url None 0%nat None (Some 180) None []
                  (Script.ready [Script.accept_json] Script.expired_once)
                  H1)).
Defined.

(** C5, as stated, fails: the first response is a 403, which calls for no
    refresh, but it arrives after the budget is spent, and the call raises
    the timeout error instead of returning it. *)
Lemma forbidden_response_then_timeout :
  let c := Script.construct_and_request [401] 2 false (Some 5) in
  let st := Script.boot Script.forbidden_slow in
  head (responses (emitted c st)) = Some (Returns (Script.response_with 403))
  ∧ status_in (status (Script.response_with 403)) [401] = false
  ∧ outcome c st = Raise TimeoutError
  ∧ outcome c st ≠ Ok (Script.response_with 403).
Proof. vm_compute. done. Qed.

(** A 403 that arrives in time is returned after one send. *)
Lemma request_without_refresh_witness :
  let c := request Script.env Script.own "GET" Script.url None None (Some 5)
             (Some 180) None [] in
  let st := Script.ready [] Script.forbidden in
  (head (responses (emitted c st)) = Some (Returns (Script.response_with 403))
   ∧ status_in (status (Script.response_with 403))
       (_refresh_status_codes Script.own) = false)
  ∧ count is_send (emitted c st) = 1%nat
  ∧ count is_refresh (emitted c st) = 0%nat
  ∧ outcome c st = Ok (Script.response_with 403).
Proof.
  intros c st.
  assert (H1 : head (responses (emitted c st))
               = Some (Returns (Script.response_with 403)))
    by (vm_compute; reflexivity).
  assert (H2 : status_in (status (Script.response_with 403))
                 (_refresh_status_codes Script.own) = false)
    by (vm_compute; reflexivity).
  split; [exact (conj H1 H2)|].
  destruct (request_without_refresh Script.env Script.own "GET" Script.url
              None None (Some 5) (Some 180) None []
              (Script.ready [] Script.forbidden) (Script.response_with 403)
              H1 H2) as (Hs & Hr & Hout).
  split; [exact Hs|]. split; [exact Hr|].
  apply Hout; [vm_compute; eauto|vm_compute; reflexivity].
Defined.


(** No headers, a 401 then a 200, without a budget: two calls, each
    decorating an empty dict of its own, the objects 0 and 1 of a store
    that was empty; the second carries the refreshed token; the call
    returns the 200 after two sends. *)
Lemma request_without_headers_witness :
  let c := request Script.env Script.own "GET" Script.url None None None
             (Some 180) None [] in
  let st := Script.ready [] Script.expired_once in
  (is_Some (_auth_request_session Script.own)
   ∧ count is_failure (emitted c st) = 0%nat
   ∧ count is_guard_timeout (emitted c st) = 0%nat)
  ∧ count is_call (emitted c st) = 2%nat
  ∧ decorated_locs (emitted c st) = [0; 1]%nat
  ∧ Forall (starts_from None ∅ 0) (emitted c st)
  ∧ heap (final c st)
    = [{["authorization" := "Bearer t0"]};
       {["authorization" := "Bearer t1"]}]
  ∧ ∃ resp, outcome c st = Ok resp ∧ count is_send (emitted c st) = 2%nat.
Proof.
  intros c st.
  assert (H1 : is_Some (_auth_request_session Script.own))
    by (vm_compute; eauto).
  assert (H2 : count is_failure (emitted c st) = 0%nat)
    by (vm_compute; reflexivity).
  assert (H3 : count is_guard_timeout (emitted c st) = 0%nat)
    by (vm_compute; reflexivity).
  assert (H4 : count is_call (emitted c st) = 2%nat)
    by (vm_compute; reflexivity).
  assert (H5 : decorations (emitted c st)
               = [{["authorization" := "Bearer t0"]};
                  {["authorization" := "Bearer t1"]}])
    by (vm_compute; reflexivity).
  split; [exact (conj H1 (conj H2 H3))|]. split; [exact H4|].
  destruct (request_without_headers Script.env Script.own "GET" Script.url
              None None (Some 180) None []
              (Script.ready [] Script.expired_once))
    as (_ & Hfrom & Hlocs & Hheap & _ & Hgo).
  split; [exact (eq_trans Hlocs (f_equal (seq 0) H4))|].
  split; [exact Hfrom|].
  split; [exact (eq_trans Hheap (f_equal (app []) H5))|].
  destruct (Hgo H1 H2 H3) as (resp & Hout & Hsends).
  exists resp. split; [exact Hout|exact (eq_trans Hsends H4)].
Defined.

(** * Further properties *)

(** ** Along the paths *)

Section MorePathFacts.

Context {W : Type} (env : Collaborators W).
Context (self : AuthorizedSession) (method url : string)
  (data : option bytes) (hdrs : option loc) (timeout : option Z)
  (kwargs : kwargs_t).

Ltac on_each_path :=
  induction 1 as [| | | | | | | |
    attempt mat st after w1 t1 w2 t2 resp1 w3 t3 evs0 evs st' r
    Hbr Ho1 Hsr Ho2 Hwant Hrf Ho3 Hevs0 Hrun IH].

(** What a response that calls for a refresh tells. *)
Ltac note_refresh :=
  try match goal with
      | H : wants_refresh _ _ _ = true |- _ =>
          pose proof (wants_refresh_lt _ _ _ H);
          pose proof (wants_refresh_status _ _ _ H)
      end.

Lemma run_lock_scoped attempt mat st evs st' r :
  run env self method url data hdrs timeout kwargs attempt mat st evs st' r →
  lock_scoped evs = true.
Proof. on_each_path; subst; cbn; done. Qed.

(** Sends and refreshes alternate, within the attempts allowed. *)
Lemma run_sends attempt mat st evs st' r :
  run env self method url data hdrs timeout kwargs attempt mat st evs st' r →
  (count is_refresh evs ≤ count is_send evs ≤ count is_refresh evs + 1)%nat
  ∧ (count is_send evs
     ≤ Z.to_nat (_max_refresh_attempts self - attempt) + 1)%nat.
Proof.
  on_each_path; subst; note_refresh; cbn; lia.
Qed.

(** A call that returns has raised nothing on the way. *)
Lemma run_returns attempt mat st evs st' r resp :
  run env self method url data hdrs timeout kwargs attempt mat st evs st' r →
  r = Ok resp →
  count is_send evs = (count is_refresh evs + 1)%nat
  ∧ count is_failure evs = 0%nat
  ∧ count is_guard_timeout evs = 0%nat
  ∧ is_Some (_auth_request_session self).
Proof.
  on_each_path; intros Hr; subst; try discriminate.
  - cbn. repeat split; eauto.
  - destruct (IH eq_refl) as (IH1 & IH2 & IH3 & IH4).
    cbn. repeat split; try done. lia.
Qed.

Lemma run_attempts attempt mat st evs st' r :
  run env self method url data hdrs timeout kwargs attempt mat st evs st' r →
  attempts evs = seqZ attempt (Z.of_nat (length (attempts evs)))
  ∧ (length (attempts evs)
     ≤ Z.to_nat (_max_refresh_attempts self - attempt) + 1)%nat.
Proof.
  on_each_path; subst; note_refresh.
  1-8: split; [reflexivity|cbn; lia].
  destruct IH as (IH1 & IH2). cbn. split; [|lia].
  rewrite (seqZ_cons attempt) by lia. f_equal.
  rewrite IH1 at 1. f_equal. lia.
Qed.

Lemma run_same_request attempt mat st evs st' r :
  run env self method url data hdrs timeout kwargs attempt mat st evs st' r →
  Forall (same_request self method url timeout) evs.
Proof.
  on_each_path; subst.
  1-8: repeat constructor.
  apply Forall_app. split; [repeat constructor|done].
Qed.

Lemma run_refreshable attempt mat st evs st' r :
  run env self method url data hdrs timeout kwargs attempt mat st evs st' r →
  (count is_refresh evs
   ≤ count (is_refreshable (_refresh_status_codes self)) evs)%nat.
Proof.
  on_each_path; subst; note_refresh; cbn;
    repeat match goal with H : status_in _ _ = true |- _ => rewrite H end;
    lia.
Qed.

Lemma run_sessions attempt mat st evs st' r :
  run env self method url data hdrs timeout kwargs attempt mat st evs st' r →
  sessions st'
  = match r, _auth_request_session self with
    | Ok _, Some s => <[s := true]> (sessions st)
    | _, _ => sessions st
    end.
Proof.
  on_each_path; subst; cbn [sessions]; try done.
  by match goal with H : _auth_request_session _ = _ |- _ => rewrite H end.
Qed.

Lemma run_budgets_head attempt mat st evs st' r :
  run env self method url data hdrs timeout kwargs attempt mat st evs st' r →
  ∃ rest, budgets evs = mat :: rest.
Proof. destruct 1; subst; cbn; eauto. Qed.

Lemma shrinks_to_refl b : shrinks_to b b.
Proof. destruct b; cbn; [lia|done]. Qed.

Lemma shrinks_to_remaining b t : 0 ≤ t → shrinks_to b (remaining b t).
Proof. destruct b; cbn; [lia|done]. Qed.

Lemma not_overdrawn_remaining b t :
  overrun b t = false → not_overdrawn (remaining b t).
Proof. destruct b; cbn; [|done]. intros ?%Z.ltb_ge. lia. Qed.

(** The budgets of the guards of a call only shrink, and no guard after the
    first two is entered on an overdrawn budget. *)
Lemma run_budgets attempt mat st evs st' r :
  run env self method url data hdrs timeout kwargs attempt mat st evs st' r →
  takes_time env →
  Sorted shrinks_to (budgets evs)
  ∧ (not_overdrawn mat → Forall not_overdrawn (budgets evs)).
Proof.
  intros Hrun (Hbefore & Hrefresh & Hsend). revert Hrun.
  on_each_path; subst; cbn [budgets evs_authorize evs_send evs_refresh app].
  1-2: split; [repeat constructor|intros ?; repeat constructor; done].
  all: pose proof (Hsend (this self) method url data (Some after) timeout
                     kwargs w1) as Ht2;
    match goal with
    | H : session_request _ _ _ _ _ _ _ _ _ = _ |- _ =>
        rewrite H in Ht2; cbn in Ht2
    end.
  1-4: split; [repeat constructor; apply shrinks_to_refl
              |intros ?; repeat constructor; done].
  1-2: split;
    [repeat constructor;
       [apply shrinks_to_remaining; done|apply shrinks_to_refl]
    |intros ?; repeat constructor; try done;
       by apply not_overdrawn_remaining].
  pose proof (Hrefresh (derive_auth_request self timeout) w2) as Ht3.
  rewrite Hrf in Ht3. cbn in Ht3.
  destruct IH as [IHs IHf].
  pose proof Hrun as [rest Hrest]%run_budgets_head.
  rewrite Hrest in *.
  split.
  - constructor;
      [constructor;
         [constructor;
            [exact IHs|constructor; by apply shrinks_to_remaining]
         |constructor; by apply shrinks_to_remaining]
      |constructor; apply shrinks_to_refl].
  - intros Hmat. do 2 (constructor; [done|]).
    constructor; [by apply not_overdrawn_remaining|].
    apply IHf. by apply not_overdrawn_remaining.
Qed.

End MorePathFacts.

(** ** Of [request] *)

Section MoreRequestFacts.

Context {W : Type} (env : Collaborators W).

(** X1: the refresh lock is taken only around [credentials.refresh]: every
    acquisition is followed at once by one refresh and by the release,
    whether the refresh returns, raises or overruns its budget, and no
    refresh is made without the lock. *)
Theorem request_lock_scoped self method url data hdrs mat timeout attempt_kw
    kwargs (st : state W) :
  let c := request env self method url data hdrs mat timeout attempt_kw
             kwargs in
  lock_scoped (emitted c st) = true.
Proof.
  cbv zeta. eapply run_lock_scoped, request_run.
Qed.

(** X2: [request] returns a response exactly when the session owns its
    auth-request session, no collaborator has raised and no time guard has
    fired during the call: it swallows no exception and has no failure of
    its own but the final [close()]. *)
Theorem request_returns_iff self method url data hdrs mat timeout attempt_kw
    kwargs (st : state W) :
  let c := request env self method url data hdrs mat timeout attempt_kw
             kwargs in
  (∃ resp, outcome c st = Ok resp)
  ↔ is_Some (_auth_request_session self)
    ∧ count is_failure (emitted c st) = 0%nat
    ∧ count is_guard_timeout (emitted c st) = 0%nat.
Proof.
  intros c.
  pose proof (request_run env self method url data hdrs mat timeout
                attempt_kw kwargs st) as Hrun.
  cbv zeta in Hrun. fold c in Hrun. split.
  - intros [resp Hresp].
    destruct (run_returns _ _ _ _ _ _ _ _ _ _ _ _ _ _ _ Hrun Hresp)
      as (_ & Hfail & Hguard & Hown).
    done.
  - intros (Hown & Hfail & Hguard).
    destruct (run_returns_last _ _ _ _ _ _ _ _ _ _ _ _ _ _ Hrun Hown Hfail
                Hguard) as (resp & Hout & _).
    by exists resp.
Qed.

(** X3: sends and refreshes alternate: a call makes as many sends as
    refreshes or one more, exactly one more when it returns, and never
    more sends than the refresh attempts left to it plus one. *)
Theorem request_sends_alternate self method url data hdrs mat timeout
    attempt_kw kwargs (st : state W) :
  let c := request env self method url data hdrs mat timeout attempt_kw
             kwargs in
  let a := default 0 attempt_kw in
  let sends := count is_send (emitted c st) in
  let refreshes := count is_refresh (emitted c st) in
  (refreshes ≤ sends ≤ refreshes + 1)%nat
  ∧ (sends ≤ Z.to_nat (_max_refresh_attempts self - a) + 1)%nat
  ∧ (∀ resp, outcome c st = Ok resp → sends = (refreshes + 1)%nat).
Proof.
  intros c a sends refreshes.
  pose proof (request_run env self method url data hdrs mat timeout
                attempt_kw kwargs st) as Hrun.
  cbv zeta in Hrun. fold c a in Hrun.
  destruct (run_sends _ _ _ _ _ _ _ _ _ _ _ _ _ _ Hrun) as [Halt Hmax].
  split; [exact Halt|]. split; [exact Hmax|].
  intros resp Hresp.
  by destruct (run_returns _ _ _ _ _ _ _ _ _ _ _ _ _ _ _ Hrun Hresp).
Qed.

(** X4: the attempt counter is the caller's own keyword when there is one:
    the calls of the recursion carry it upwards one by one, and a call
    entered with counter [a] makes at most [max_refresh_attempts - a]
    refreshes, none when [a] has reached [max_refresh_attempts]. *)
Theorem request_attempts self method url data hdrs mat timeout attempt_kw
    kwargs (st : state W) :
  let c := request env self method url data hdrs mat timeout attempt_kw
             kwargs in
  let a := default 0 attempt_kw in
  attempts (emitted c st)
  = seqZ a (Z.of_nat (length (attempts (emitted c st))))
  ∧ (length (attempts (emitted c st))
     ≤ Z.to_nat (_max_refresh_attempts self - a) + 1)%nat
  ∧ (count is_refresh (emitted c st)
     ≤ Z.to_nat (_max_refresh_attempts self - a))%nat.
Proof.
  intros c a.
  pose proof (request_run env self method url data hdrs mat timeout
                attempt_kw kwargs st) as Hrun.
  cbv zeta in Hrun. fold c a in Hrun.
  destruct (run_attempts _ _ _ _ _ _ _ _ _ _ _ _ _ _ Hrun) as [Hseq Hlen].
  split; [exact Hseq|]. split; [exact Hlen|].
  eapply run_refresh_bound, Hrun.
Qed.

(** X5: every attempt is the same request: each send goes through the
    session itself with the caller's method, URL and timeout, and each
    decoration and each refresh is handed [self._auth_request] when the
    timeout is [None] and [functools.partial(self._auth_request,
    timeout=timeout)] otherwise. *)
Theorem request_same_request self method url data hdrs mat timeout attempt_kw
    kwargs (st : state W) :
  let c := request env self method url data hdrs mat timeout attempt_kw
             kwargs in
  Forall (same_request self method url timeout) (emitted c st).
Proof.
  cbv zeta. eapply run_same_request, request_run.
Qed.

(** X6: there is no refresh without a response that asks for one: a call
    makes at most as many refreshes as it has received responses with a
    status in [refresh_status_codes]. *)
Theorem request_refreshable self method url data hdrs mat timeout attempt_kw
    kwargs (st : state W) :
  let c := request env self method url data hdrs mat timeout attempt_kw
             kwargs in
  (count is_refresh (emitted c st)
   ≤ count (is_refreshable (_refresh_status_codes self)) (emitted c st))%nat.
Proof.
  cbv zeta. eapply run_refreshable, request_run.
Qed.

(** X7: [request] closes the session's own auth-request session when it
    returns and touches no aiohttp session otherwise: on every failure the
    auth-request session is left as it was. *)
Theorem request_sessions self method url data hdrs mat timeout attempt_kw
    kwargs (st : state W) :
  let c := request env self method url data hdrs mat timeout attempt_kw
             kwargs in
  sessions (final c st)
  = match outcome c st, _auth_request_session self with
    | Ok _, Some s => <[s := true]> (sessions st)
    | _, _ => sessions st
    end.
Proof.
  cbv zeta. eapply run_sessions, request_run.
Qed.

(** X8: the only change [request] makes to the dict objects is to add one
    per attempt, the decorated copy of the headers; every dict that
    existed is left as it was, whatever the headers argument. *)
Theorem request_heap self method url data hdrs mat timeout attempt_kw kwargs
    (st : state W) :
  let c := request env self method url data hdrs mat timeout attempt_kw
             kwargs in
  heap (final c st) = heap st ++ decorations (emitted c st)
  ∧ length (decorations (emitted c st)) = count is_call (emitted c st).
Proof.
  cbv zeta. eapply run_heap, request_run.
Qed.

(** X9: when the collaborators take no negative time, the budgets the
    guards of a call are entered with never grow, and from a budget that is
    not overdrawn no guard and no recursive call is entered on an overdrawn
    one. *)
Theorem request_budgets self method url data hdrs mat timeout attempt_kw
    kwargs (st : state W) :
  let c := request env self method url data hdrs mat timeout attempt_kw
             kwargs in
  takes_time env →
  Sorted shrinks_to (budgets (emitted c st))
  ∧ (not_overdrawn mat → Forall not_overdrawn (budgets (emitted c st))).
Proof.
  cbv zeta. eapply run_budgets, request_run.
Qed.

(** The invoker makes one transport call, with the arguments it was
    given. *)
Lemma Request_call_emitted (r : Request) url method body hdrs timeout kwargs
    (st : state W) :
  emitted (Request_call env r url method body hdrs timeout kwargs) st
  = [EvSend (session r) method url hdrs timeout
       (session_request env (session r) method url body hdrs timeout kwargs
          (world st)).2].
Proof.
  unfold emitted, Request_call, wrap_transport_errors, bind,
    ClientSession_request, ret.
  destruct (session_request env _ _ _ _ _ _ _ _) as [[w took] [resp|e]];
    cbn; [by rewrite drop_app_length|].
  destruct (is_ClientError e); cbn; [|destruct (is_asyncio_TimeoutError e)];
    cbn; by rewrite drop_app_length.
Qed.

(** X10: the callable [request] derives for the credentials makes one
    transport call on the session of [self._auth_request]; unless the
    credentials pass a timeout of their own, that call carries the timeout
    of the [request] call, and the default of the invoker when that is
    [None]. *)
Theorem auth_request_call_timeout self timeout url method body hdrs
    timeout_kw kwargs (st : state W) :
  let c := auth_request_call env (derive_auth_request self timeout) url
             method body hdrs timeout_kw kwargs in
  let used := default (Some (default _DEFAULT_TIMEOUT timeout)) timeout_kw in
  let r := (session_request env (session (_auth_request self)) method url
              body hdrs used kwargs (world st)).2 in
  emitted c st
  = [EvSend (session (_auth_request self)) method url hdrs used r].
Proof.
  destruct timeout as [t|]; cbn; apply Request_call_emitted.
Qed.

(** X11: a session constructed without [auth_request] that has returned
    from a [request] has closed the aiohttp session of its
    [_auth_request], not itself; in every later [request] the callable
    handed to the credentials works on that closed session. *)
Theorem request_again_after_return codes attempts refresh_timeout
    (st st1 : state W) self method url data hdrs mat timeout attempt_kw
    kwargs resp :
  AuthorizedSession_init codes attempts refresh_timeout None st
  = (st1, Ok self) →
  let c := request env self method url data hdrs mat timeout attempt_kw
             kwargs in
  outcome c st1 = Ok resp →
  let st2 := final c st1 in
  sessions st2 !! session (_auth_request self) = Some true
  ∧ sessions st2 !! this self = Some false
  ∧ ∀ method' url' data' hdrs' mat' timeout' attempt_kw' kwargs',
      Forall (hands_closed_session (sessions st2))
        (emitted (request env self method' url' data' hdrs' mat' timeout'
                    attempt_kw' kwargs') st2).
Proof.
  intros Hinit c Hok st2.
  unfold AuthorizedSession_init, bind, ClientSession_new, ret in Hinit.
  cbn in Hinit. injection Hinit as Hst1 Hself.
  rewrite length_app, Nat.add_1_r in Hself.
  set (n := length (sessions st)) in *.
  assert (Hown : _auth_request_session self = Some (S n)) by by subst self.
  assert (Hreq : session (_auth_request self) = S n) by by subst self.
  assert (Hthis : this self = n) by by subst self.
  assert (Hss : sessions st1 = (sessions st ++ [false]) ++ [false])
    by by subst st1.
  pose proof (run_sessions _ _ _ _ _ _ _ _ _ _ _ _ _ _
                (request_run env self method url data hdrs mat timeout
                   attempt_kw kwargs st1)) as Hrun.
  cbv zeta in Hrun. fold c in Hrun. fold st2 in Hrun.
  rewrite Hok, Hown, Hss in Hrun.
  assert (Hclosed : sessions st2 !! S n = Some true).
  { rewrite Hrun. apply list_lookup_insert_eq. rewrite !length_app. cbn.
    lia. }
  rewrite Hreq, Hthis. split; [exact Hclosed|]. split.
  - rewrite Hrun, list_lookup_insert_ne by lia.
    rewrite lookup_app_l by (rewrite length_app; cbn; lia).
    rewrite lookup_app_r by lia. by rewrite Nat.sub_diag.
  - intros method' url' data' hdrs' mat' timeout' attempt_kw' kwargs'.
    eapply Forall_impl; [eapply run_same_request, request_run|].
    intros [] He; cbn in *; try done; subst a;
      destruct timeout'; cbn; by rewrite Hreq.
Qed.

End MoreRequestFacts.

(** [configure_mtls_channel] does nothing, whatever callback it is given. *)
Lemma configure_mtls_channel_inert {W C} (self : AuthorizedSession)
    (client_cert_callback : option C) (st : state W) :
  configure_mtls_channel self client_cert_callback st = (st, Ok tt).
Proof. reflexivity. Qed.

(** A 401 then a 200, without a budget: the call returns after two sends
    and one refresh. *)
Lemma request_sends_alternate_witness :
  let c := request Script.env Script.own "GET" Script.url None None None
             (Some 180) None [] in
  let st := Script.ready [] Script.expired_once in
  outcome c st = Ok (Script.response_with 200)
  ∧ count is_send (emitted c st) = (count is_refresh (emitted c st) + 1)%nat.
Proof.
  intros c st.
  assert (H1 : outcome c st = Ok (Script.response_with 200))
    by (vm_compute; reflexivity).
  split; [exact H1|].
  exact (proj2 (proj2 (request_sends_alternate Script.env Script.own "GET"
                         Script.url None None None (Some 180) None []
                         (Script.ready [] Script.expired_once)))
           (Script.response_with 200) H1).
Defined.

Lemma Steady_takes_time : takes_time Steady.env.
Proof.
  repeat split; intros; cbn; try lia.
  destruct w; cbn; lia.
Qed.

(** In the steady world, with a budget of 10, a 401 and a 200. *)
Lemma request_budgets_witness :
  let c := request Steady.env Script.own "GET" Script.url None None (Some 10)
             (Some 180) None [] in
  let st := mkState [] [false; false] [401; 200] 0 [] in
  (takes_time Steady.env ∧ not_overdrawn (Some 10))
  ∧ Sorted shrinks_to (budgets (emitted c st))
  ∧ Forall not_overdrawn (budgets (emitted c st)).
Proof.
  intros c st.
  assert (H1 : takes_time Steady.env) by exact Steady_takes_time.
  assert (H2 : not_overdrawn (Some 10)) by (cbn; lia).
  split; [exact (conj H1 H2)|].
  destruct (request_budgets Steady.env Script.own "GET" Script.url None None
              (Some 10) (Some 180) None []
              (mkState [] [false; false] [401; 200] 0 []) H1) as [Hs Hf].
  split; [exact Hs|exact (Hf H2)].
Defined.

(** A session is constructed and answered 200. *)
Lemma request_again_after_return_witness :
  let st := Script.boot Script.one_ok in
  let st1 := Script.ready [] Script.one_ok in
  let c := request Script.env Script.own "GET" Script.url None None None
             (Some 180) None [] in
  (AuthorizedSession_init [401] 2 None None st = (st1, Ok Script.own)
   ∧ outcome c st1 = Ok (Script.response_with 200))
  ∧ sessions (final c st1) !! session (_auth_request Script.own) = Some true
  ∧ sessions (final c st1) !! this Script.own = Some false.
Proof.
  intros st st1 c.
  assert (H1 : AuthorizedSession_init [401] 2 None None st
               = (st1, Ok Script.own)) by reflexivity.
  assert (H2 : outcome c st1 = Ok (Script.response_with 200))
    by (vm_compute; reflexivity).
  split; [exact (conj H1 H2)|].
  destruct (request_again_after_return Script.env [401] 2 None
              (Script.boot Script.one_ok) (Script.ready [] Script.one_ok)
              Script.own "GET" Script.url None None None (Some 180) None []
              (Script.response_with 200) H1 H2) as (Ha & Hb & _).
  split; [exact Ha|exact Hb].
Defined.

(** ** The time a call takes *)

Section Elapsed.

Context {W : Type} (env : Collaborators W).
Context (self : AuthorizedSession) (method url : string)
  (data : option bytes) (hdrs : option loc) (timeout : option Z)
  (kwargs : kwargs_t).

(** The times the collaborators took on a path, and what the guards that
    did not fire tell about them. *)
Ltac note_times Htime :=
  destruct Htime as (Hbefore & Hrefresh & Hsend);
  repeat match goal with
    | H : cred_before_request _ ?a ?m ?u ?d ?w = _ |- _ =>
        let Ht := fresh "Ht" in
        pose proof (Hbefore a m u d w) as Ht; rewrite H in Ht; cbn in Ht;
        revert H
    | H : session_request _ ?s ?m ?u ?d ?h ?t ?k ?w = _ |- _ =>
        let Ht := fresh "Ht" in
        pose proof (Hsend s m u d h t k w) as Ht; rewrite H in Ht;
        cbn in Ht; revert H
    | H : cred_refresh _ ?a ?w = _ |- _ =>
        let Ht := fresh "Ht" in
        pose proof (Hrefresh a w) as Ht; rewrite H in Ht; cbn in Ht;
        revert H
    | H : overrun _ _ = false |- _ => cbn in H; apply Z.ltb_ge in H; revert H
    end;
  intros.

Lemma run_elapsed attempt mat st evs st' r :
  run env self method url data hdrs timeout kwargs attempt mat st evs st' r →
  takes_time env →
  ∀ b, mat = Some b →
  count is_guard_timeout evs = 0%nat →
  0 ≤ b ∧ clock st' - clock st ≤ b * (Z.of_nat (count is_call evs) + 1).
Proof.
  induction 1 as [| | | | | | | |
    attempt mat st after w1 t1 w2 t2 resp1 w3 t3 evs0 evs st' r
    Hbr Ho1 Hsr Ho2 Hwant Hrf Ho3 Hevs0 Hrun IH];
    intros Htime b -> Hguard; subst; cbn in Hguard; try discriminate Hguard.
  1-5: note_times Htime; cbn; lia.
  destruct (IH Htime (b - t2 - t3) eq_refl Hguard) as [Hb' IHc].
  cbn [clock] in IHc.
  note_times Htime.
  rewrite count_app. cbn.
  set (k := Z.of_nat (count is_call evs)) in *.
  assert (0 ≤ k) by lia.
  split; [lia|]. nia.
Qed.

End Elapsed.

(** X14: the deadline [request] keeps. With collaborators that take no
    negative time and a budget [b], a call during which no guard fires
    takes at most [b] for each decoration it makes and [b] more for all its
    sends and refreshes together: [b] times the number of attempts plus
    one, not [b]. *)
Theorem request_elapsed {W} (env : Collaborators W) self method url data hdrs
    b timeout attempt_kw kwargs (st : state W) :
  let c := request env self method url data hdrs (Some b) timeout attempt_kw
             kwargs in
  takes_time env →
  count is_guard_timeout (emitted c st) = 0%nat →
  clock (final c st) - clock st
  ≤ b * (Z.of_nat (count is_call (emitted c st)) + 1).
Proof.
  intros c Htime Hguard.
  pose proof (request_run env self method url data hdrs (Some b) timeout
                attempt_kw kwargs st) as Hrun.
  cbv zeta in Hrun. fold c in Hrun.
  by destruct (run_elapsed _ _ _ _ _ _ _ _ _ _ _ _ _ _ Hrun Htime b eq_refl
                 Hguard).
Qed.

(** In the steady world, with a budget of 3, a 401 and a 200: the call
    returns after 5 ticks. *)
Lemma request_elapsed_witness :
  let c := request Steady.env Script.own "GET" Script.url None None (Some 3)
             (Some 180) None [] in
  let st := mkState [] [false; false] [401; 200] 0 [] in
  (takes_time Steady.env ∧ count is_guard_timeout (emitted c st) = 0%nat)
  ∧ clock (final c st) = 5
  ∧ clock (final c st) - clock st
    ≤ 3 * (Z.of_nat (count is_call (emitted c st)) + 1).
Proof.
  intros c st.
  assert (H1 : takes_time Steady.env) by exact Steady_takes_time.
  assert (H2 : count is_guard_timeout (emitted c st) = 0%nat)
    by (vm_compute; reflexivity).
  split; [exact (conj H1 H2)|]. split; [vm_compute; reflexivity|].
  exact (request_elapsed Steady.env Script.own "GET" Script.url None None 3
           (Some 180) None [] (mkState [] [false; false] [401; 200] 0 [])
           H1 H2).
Defined.
